(** * rwb: a buffering decorator over Go's [http.ResponseWriter]

    A shallow embedding of [rwb.go] (package [rwb]) together with the parts of
    Go's [net/http] and [net/textproto] header API that [Flush] calls
    ([Header.Del], [Header.Values], [Header.Add], [Header.Clone] and
    [CanonicalMIMEHeaderKey]).

    Go maps are reference objects: a header map lives in a heap of maps and is
    named by a location, so that the sink's live header map and the buffer's
    clone are two objects.  The order in which a [range] statement visits a map
    is not specified by Go; every loop below therefore takes the visiting order
    as an explicit list of keys. *)

From stdpp Require Import gmap strings list fin_maps.
From Stdlib Require Import ZArith Ascii.
From Stdlib.Strings Require Import Byte.

Local Open Scope Z_scope.
Local Open Scope list_scope.

(** ** net/textproto: canonical header keys *)

Module textproto.

Definition is_lower (c : ascii) : bool :=
  ((97 <=? N_of_ascii c) && (N_of_ascii c <=? 122))%N.

Definition is_upper (c : ascii) : bool :=
  ((65 <=? N_of_ascii c) && (N_of_ascii c <=? 90))%N.

Definition is_digit (c : ascii) : bool :=
  ((48 <=? N_of_ascii c) && (N_of_ascii c <=? 57))%N.

(** [validHeaderFieldByte]: the token characters of RFC 7230. *)
Definition validHeaderFieldByte (c : ascii) : bool :=
  is_lower c || is_upper c || is_digit c ||
  existsb (Ascii.eqb c)
    ["!"; "#"; "$"; "%"; "&"; "'"; "*"; "+"; "-"; "."; "^"; "_"; "`"; "|"; "~"]%char.

(** [toLower = 'a' - 'A'] *)
Definition toLower : N := 32.

(** One step of the canonicalising loop: upper-case the byte when [upper]
    is set, lower-case it otherwise. *)
Definition canon_byte (upper : bool) (c : ascii) : ascii :=
  if upper && is_lower c then ascii_of_N (N_of_ascii c - toLower)
  else if negb upper && is_upper c then ascii_of_N (N_of_ascii c + toLower)
  else c.

Fixpoint canon_loop (upper : bool) (a : string) : string :=
  match a with
  | EmptyString => EmptyString
  | String c a' =>
      let c' := canon_byte upper c in
      String c' (canon_loop (Ascii.eqb c' "-") a')
  end.

Fixpoint all_valid (a : string) : bool :=
  match a with
  | EmptyString => true
  | String c a' => validHeaderFieldByte c && all_valid a'
  end.

(** [CanonicalMIMEHeaderKey]: a key holding a byte that is not a token
    character is returned unchanged; otherwise the first letter and every
    letter after a hyphen are upper-cased and the others lower-cased. *)
Definition CanonicalMIMEHeaderKey (s : string) : string :=
  if all_valid s then canon_loop true s else s.

End textproto.

(** ** net/http: the [Header] type, [map[string][]string] *)

Module http.

Abbreviation Header := (gmap string (list string)).

(** [h.Values(key)]: the values stored under the canonical form of [key];
    a missing key reads as the empty slice. *)
Definition Values (h : Header) (key : string) : list string :=
  default [] (h !! textproto.CanonicalMIMEHeaderKey key).

(** [h.Add(key, value)]: append under the canonical form of [key]. *)
Definition Add (key value : string) (h : Header) : Header :=
  <[textproto.CanonicalMIMEHeaderKey key :=
      default [] (h !! textproto.CanonicalMIMEHeaderKey key) ++ [value]]> h.

(** [h.Del(key)]: delete the canonical form of [key]. *)
Definition Del (key : string) (h : Header) : Header :=
  delete (textproto.CanonicalMIMEHeaderKey key) h.

(** A visiting order of [range h]: every key of [h] exactly once. *)
Definition range_of (h : Header) (ks : list string) : Prop :=
  ks ≡ₚ (map_to_list h).*1.

(** Every key of [h] is its own canonical form, as when [h] was filled
    through [Add], [Set] and [Del] only. *)
Definition canonical_keys (h : Header) : Prop :=
  ∀ k, is_Some (h !! k) → textproto.CanonicalMIMEHeaderKey k = k.

End http.

(** ** rwb.go: header reconciliation of [Flush] (pure part) *)

Module reconcile.

Import http.

(** Lines 62-66.  [for key := range actualHeader]: a key deleted before it
    is reached is not visited; a visited key that the clone lacks (a plain
    map index [rw.header[key]]) is passed to [actualHeader.Del]. *)
Fixpoint delete_loop (ks : list string) (local actual : Header) : Header :=
  match ks with
  | [] => actual
  | key :: ks' =>
      match actual !! key with
      | None => delete_loop ks' local actual
      | Some _ =>
          match local !! key with
          | Some _ => delete_loop ks' local actual
          | None => delete_loop ks' local (Del key actual)
          end
      end
  end.

(** Lines 70-76: the linear search with [break]. *)
Fixpoint found (value : string) (actualValues : list string) : bool :=
  match actualValues with
  | [] => false
  | actualValue :: rest =>
      if String.eqb actualValue value then true else found value rest
  end.

(** Lines 69-81, one iteration: skip a value that is found, add it
    otherwise. *)
Definition copy_value (key : string) (actual : Header) (value : string) : Header :=
  if found value (Values actual key) then actual else Add key value actual.

(** Lines 68-82.  [for key, values := range rw.header]. *)
Definition copy_loop (ks : list string) (local actual : Header) : Header :=
  fold_left
    (λ actual key, fold_left (copy_value key) (default [] (local !! key)) actual)
    ks actual.

(** Lines 60-82 with the two visiting orders made explicit. *)
Definition flush_headers (ks1 ks2 : list string) (local actual : Header) : Header :=
  copy_loop ks2 local (delete_loop ks1 local actual).

End reconcile.

(** ** Go's [error] values and [bytes.Buffer] *)

(** [ErrBufferClosed] is the package's one error value; any other error a
    sink returns is carried by [ErrSink]. *)
Inductive error : Type :=
  | ErrBufferClosed
  | ErrSink (msg : string).

Module bytes.

(** A [bytes.Buffer] that is only written, reset and read as a whole. *)
Record Buffer : Type := { buf : list byte }.

(** The zero value [bytes.Buffer{}]. *)
Definition empty : Buffer := {| buf := [] |}.

Definition Reset (b : Buffer) : Buffer := {| buf := [] |}.

(** [b.Write(p)] appends [p] and returns [len(p), nil]. *)
Definition Write (p : list byte) (b : Buffer) : Buffer * (Z * option error) :=
  ({| buf := buf b ++ p |}, (Z.of_nat (length p), None)).

Definition Bytes (b : Buffer) : list byte := buf b.

End bytes.

(** ** The underlying [http.ResponseWriter] and the world it lives in *)

(** Locations of header maps. *)
Abbreviation loc := positive.

(** The interface [http.ResponseWriter].  [rw_Header] is the location of the
    sink's live header map; [rw_WriteHeader] and [rw_Write] see and may change
    the sink's private state and the contents of that map. *)
Class ResponseWriter (W : Type) : Type := {
  rw_Header : W → loc;
  rw_WriteHeader : Z → W → http.Header → W * http.Header;
  rw_Write : list byte → W → http.Header → W * http.Header * (Z * option error);
}.

(** A call that reached the sink's [WriteHeader] or [Write]. *)
Inductive call : Type :=
  | CallWriteHeader (statusCode : Z)
  | CallWrite (body : list byte).

(** The world: the heap of header maps, the sink, and the log of the status
    and body writes issued on the sink so far (oldest first). *)
Record World (W : Type) : Type := {
  heap : gmap loc http.Header;
  sink : W;
  wire : list call;
}.
Arguments heap {W} _.
Arguments sink {W} _.
Arguments wire {W} _.

(** [ResponseWriterBuffer].  The embedded [http.ResponseWriter] is the world's
    sink; [header] is the location of the buffer's own map. *)
Record ResponseWriterBuffer : Type := {
  header : loc;
  body : bytes.Buffer;
  statusCode : Z;
  closed : bool;
}.

Section Rwb.

Context {W : Type} `{RW : ResponseWriter W}.

(** The contents of the header map at [l]. *)
Definition load (l : loc) (σ : World W) : http.Header :=
  default ∅ (heap σ !! l).

Definition store (l : loc) (h : http.Header) (σ : World W) : World W :=
  {| heap := <[l := h]> (heap σ); sink := sink σ; wire := wire σ |}.

(** An in-place change [f] of the map at [l], as made by a caller holding
    the map ([Set], [Add], [Del], index assignment, [delete]). *)
Definition mutate (l : loc) (f : http.Header → http.Header) (σ : World W) : World W :=
  store l (f (load l σ)) σ.

(** [h.Clone()]: a new map with the same keys and values. *)
Definition Clone (l : loc) (σ : World W) : loc * World W :=
  let l' := fresh (dom (heap σ)) in
  (l', store l' (load l σ) σ).

(** [w.WriteHeader(code)] on the sink. *)
Definition sink_WriteHeader (code : Z) (σ : World W) : World W :=
  let l := rw_Header (sink σ) in
  let '(w', h') := rw_WriteHeader code (sink σ) (load l σ) in
  {| heap := <[l := h']> (heap σ); sink := w'; wire := wire σ ++ [CallWriteHeader code] |}.

(** [w.Write(p)] on the sink. *)
Definition sink_Write (p : list byte) (σ : World W) : (Z * option error) * World W :=
  let l := rw_Header (sink σ) in
  let '(w', h', r) := rw_Write p (sink σ) (load l σ) in
  (r, {| heap := <[l := h']> (heap σ); sink := w'; wire := wire σ ++ [CallWrite p] |}).

(** *** rwb.go *)

(** Lines 96-103. *)
Definition New (σ : World W) : ResponseWriterBuffer * World W :=
  let '(l, σ') := Clone (rw_Header (sink σ)) σ in
  ({| header := l; body := bytes.empty; statusCode := 0; closed := false |}, σ').

(** Lines 36-38. *)
Definition Header (rw : ResponseWriterBuffer) : loc := header rw.

(** Lines 41-47. *)
Definition Write (p : list byte) (rw : ResponseWriterBuffer) (σ : World W)
  : (Z * option error) * ResponseWriterBuffer * World W :=
  if closed rw then ((0, Some ErrBufferClosed), rw, σ)
  else
    let '(b, r) := bytes.Write p (bytes.Reset (body rw)) in
    (r, {| header := header rw; body := b;
           statusCode := statusCode rw; closed := closed rw |}, σ).

(** Lines 50-52. *)
Definition WriteHeader (code : Z) (rw : ResponseWriterBuffer) (σ : World W)
  : ResponseWriterBuffer * World W :=
  ({| header := header rw; body := body rw;
      statusCode := code; closed := closed rw |}, σ).

(** Lines 60-82: the reconciliation applied to the sink's live map.  The two
    loops only read the buffer's map and only write the sink's; the two maps
    are different objects for every buffer that [New] returns, so the loops
    are run on the contents of the two maps and the result is stored in the
    sink's. *)
Definition flush_headers_in (ks1 ks2 : list string) (rw : ResponseWriterBuffer)
    (σ : World W) : World W :=
  let actualHeader := rw_Header (sink σ) in
  store actualHeader
    (reconcile.flush_headers ks1 ks2 (load (header rw) σ) (load actualHeader σ)) σ.

(** Lines 84-86. *)
Definition flush_status (rw : ResponseWriterBuffer) (σ : World W) : World W :=
  if Z.eqb (statusCode rw) 0 then σ else sink_WriteHeader (statusCode rw) σ.

(** Lines 56-93.  [ks1] and [ks2] are the orders in which the two [range]
    statements visit the sink's map and the buffer's map. *)
Definition Flush (ks1 ks2 : list string) (rw : ResponseWriterBuffer) (σ : World W)
  : (Z * option error) * ResponseWriterBuffer * World W :=
  if closed rw then ((0, Some ErrBufferClosed), rw, σ)
  else
    let σ1 := flush_headers_in ks1 ks2 rw σ in
    let σ2 := flush_status rw σ1 in
    let '((n, err), σ3) := sink_Write (bytes.Bytes (body rw)) σ2 in
    match err with
    | Some e => ((0, Some e), rw, σ3)
    | None =>
        ((n, None),
         {| header := header rw; body := body rw;
            statusCode := statusCode rw; closed := true |}, σ3)
    end.

(** *** Callers *)

(** One step of a caller that holds the sink and a buffer variable:
    [rwb = New(w)], a change of the map returned by [rwb.Header()],
    [rwb.Write(p)], [rwb.WriteHeader(code)], [rwb.Flush()]. *)
Inductive op : Type :=
  | OpNew
  | OpHeader (f : http.Header → http.Header)
  | OpWrite (p : list byte)
  | OpWriteHeader (code : Z)
  | OpFlush (ks1 ks2 : list string).

Definition run_op (st : ResponseWriterBuffer * World W) (o : op)
  : ResponseWriterBuffer * World W :=
  let '(rw, σ) := st in
  match o with
  | OpNew => New σ
  | OpHeader f => (rw, mutate (Header rw) f σ)
  | OpWrite p => let '(_, rw', σ') := Write p rw σ in (rw', σ')
  | OpWriteHeader code => WriteHeader code rw σ
  | OpFlush ks1 ks2 => let '(_, rw', σ') := Flush ks1 ks2 rw σ in (rw', σ')
  end.

Definition run_ops (ops : list op) (st : ResponseWriterBuffer * World W)
  : ResponseWriterBuffer * World W :=
  fold_left run_op ops st.

Definition is_flush (o : op) : bool :=
  match o with OpFlush _ _ => true | _ => false end.

Definition is_new (o : op) : bool :=
  match o with OpNew => true | _ => false end.

(** What a caller's state [st] preserves of the world [σ] in which the
    sink was handed over: the sink, the calls it received, every header map
    that existed in [σ]; and the buffer's own map is none of these. *)
Definition preserves (σ : World W) (st : ResponseWriterBuffer * World W) : Prop :=
  sink st.2 = sink σ
  ∧ wire st.2 = wire σ
  ∧ (∀ l, is_Some (heap σ !! l) → heap st.2 !! l = heap σ !! l)
  ∧ heap σ !! header st.1 = None.

End Rwb.

(** ** A recording sink

    A small [http.ResponseWriter] in the manner of [httptest.ResponseRecorder]:
    it keeps the first status code and the body bytes it was given, and fails
    every body write with [rec_fail] when that is set. *)
Record Recorder : Type := {
  rec_header : loc;
  rec_code : Z;
  rec_body : list byte;
  rec_fail : option error;
}.

Definition Recorder_WriteHeader (code : Z) (r : Recorder) (h : http.Header)
  : Recorder * http.Header :=
  ({| rec_header := rec_header r;
      rec_code := if Z.eqb (rec_code r) 0 then code else rec_code r;
      rec_body := rec_body r; rec_fail := rec_fail r |}, h).

Definition Recorder_Write (p : list byte) (r : Recorder) (h : http.Header)
  : Recorder * http.Header * (Z * option error) :=
  match rec_fail r with
  | Some e => (r, h, (0, Some e))
  | None =>
      ({| rec_header := rec_header r; rec_code := rec_code r;
          rec_body := rec_body r ++ p; rec_fail := rec_fail r |}, h,
       (Z.of_nat (length p), None))
  end.

#[export] Instance Recorder_ResponseWriter : ResponseWriter Recorder := {
  rw_Header := rec_header;
  rw_WriteHeader := Recorder_WriteHeader;
  rw_Write := Recorder_Write;
}.

(** [[]byte("hello")] and [[]byte("world")]. *)
Definition hello : list byte := String.list_byte_of_string "hello".
Definition world : list byte := String.list_byte_of_string "world".

(** A recorder whose live header map is [h], at location 1. *)
Definition recorder_world (h : http.Header) (fail : option error) : World Recorder :=
  {| heap := {[1%positive := h]};
     sink := {| rec_header := 1%positive; rec_code := 0; rec_body := []; rec_fail := fail |};
     wire := [] |}.

(** A run whose body write fails: the sink holds {"X": ["a"]}; the buffer's
    set is changed to {"Y": ["b"]}, the status is set to 404, and the sink
    refuses the body. *)
Definition failing_run : ResponseWriterBuffer * World Recorder :=
  let st := New (recorder_world {["X" := ["a"]]} (Some (ErrSink "broken pipe"))) in
  let σ1 := mutate (Header st.1) (λ h, <["Y" := ["b"]]> (delete "X" h)) st.2 in
  WriteHeader 404 st.1 σ1.

(** ** Auxiliary functions describing the effect of the loops *)

Module effect.

Import http reconcile.

(** What one round of lines 69-81 does to the values under a single key. *)
Definition append_one (o : option (list string)) (value : string)
  : option (list string) :=
  if found value (default [] o) then o else Some (default [] o ++ [value]).

Definition append_missing (values : list string) (o : option (list string))
  : option (list string) :=
  fold_left append_one values o.

(** The values the second loop offers to the canonical key [c], in visiting
    order. *)
Definition offered (c : string) (ks : list string) (local : Header) : list string :=
  concat (map (λ k, default [] (local !! k))
              (filter (λ k, textproto.CanonicalMIMEHeaderKey k = c) ks)).

(** The spec's reading of the net effect: under every key the two header
    sets hold the same set of values. *)
Definition set_equal_per_key (h1 h2 : Header) : Prop :=
  ∀ k v, v ∈ Values h1 k ↔ v ∈ Values h2 k.

End effect.

(** ** More of [http.Header], and the callers in the repository *)

Module header_api.

Import http.

(** [h.Set(key, value)]: the canonical form of [key] gets the one value. *)
Definition Header_Set (key value : string) (h : Header) : Header :=
  <[textproto.CanonicalMIMEHeaderKey key := [value]]> h.

(** [h.Get(key)]: the first value under the canonical form of [key], the
    empty string when there is none. *)
Definition Header_Get (h : Header) (key : string) : string :=
  match Values h key with
  | [] => ""
  | v :: _ => v
  end.

(** rwb_test.go, lines 174-178 and 181-185: every value of a table of
    headers is added to a header map, the table's entries in the order in
    which its [range] visits them. *)
Definition add_all (table : list (string * list string)) (h : Header) : Header :=
  fold_left (λ h kv, fold_left (λ h value, Add kv.1 value h) kv.2 h) table h.

(** No two keys of [h] have the same canonical form. *)
Definition distinct_canonical (h : Header) : Prop :=
  ∀ k k', is_Some (h !! k) → is_Some (h !! k') →
    textproto.CanonicalMIMEHeaderKey k = textproto.CanonicalMIMEHeaderKey k' → k = k'.

(** No key of [h] holds a value twice. *)
Definition no_dup_values (h : Header) : Prop :=
  ∀ k vs, h !! k = Some vs → NoDup vs.

End header_api.

Section Callers.

Context {W : Type} `{RW : ResponseWriter W}.

(** [err == nil] *)
Definition is_nil (err : option error) : bool :=
  match err with
  | None => true
  | Some _ => false
  end.

(** rwb_test.go, lines 174-178 and 181-185, on the map at [l]: one
    [Header().Add(key, value)] per value. *)
Definition add_table (l : loc) (table : list (string * list string)) (σ : World W)
  : World W :=
  fold_left
    (λ σ kv, fold_left (λ σ value, mutate l (http.Add kv.1 value) σ) kv.2 σ)
    table σ.

(** rwb_test.go, lines 41-61: the handler of the write test.  The boolean is
    false as soon as one of the handler's [t.Error] or [t.Errorf] calls is
    reached. *)
Definition write_handler (ResponseBody : list byte) (flush : bool)
    (ks1 ks2 : list string) (σ : World W) : bool * World W :=
  let '(rwb, σ) := New σ in
  let '((n, err), rwb, σ) := Write ResponseBody rwb σ in
  let ok := is_nil err && Z.eqb n (Z.of_nat (length ResponseBody)) in
  if flush then
    let '((n, err), rwb, σ) := Flush ks1 ks2 rwb σ in
    (ok && is_nil err && Z.eqb n (Z.of_nat (length ResponseBody)), σ)
  else (ok, σ).

(** rwb_test.go, lines 172-185: the handler of the header test up to its
    [Flush]. *)
Definition header_setup (StartingHeaders AdditionalHeaders : list (string * list string))
    (σ : World W) : ResponseWriterBuffer * World W :=
  let σ := add_table (rw_Header (sink σ)) StartingHeaders σ in
  let '(rwb, σ) := New σ in
  (rwb, add_table (Header rwb) AdditionalHeaders σ).

(** rwb_test.go, lines 172-193: the handler of the header test; the boolean
    is false when its [t.Error] is reached. *)
Definition header_handler (StartingHeaders AdditionalHeaders : list (string * list string))
    (flush : bool) (ks1 ks2 : list string) (σ : World W) : bool * World W :=
  let '(rwb, σ) := header_setup StartingHeaders AdditionalHeaders σ in
  if flush then
    let '((_, err), _, σ) := Flush ks1 ks2 rwb σ in (is_nil err, σ)
  else (true, σ).

End Callers.

(** ** A buffer as the sink of another buffer

    [ResponseWriterBuffer] has the three methods of [http.ResponseWriter], so
    [New] accepts a buffer.  [Write] and [WriteHeader] neither read nor change
    the world, so the instance runs them in an empty one. *)
Definition no_world : World unit := {| heap := ∅; sink := tt; wire := [] |}.

Definition Buffer_WriteHeader (code : Z) (rw : ResponseWriterBuffer) (h : http.Header)
  : ResponseWriterBuffer * http.Header :=
  ((WriteHeader code rw no_world).1, h).

Definition Buffer_Write (p : list byte) (rw : ResponseWriterBuffer) (h : http.Header)
  : ResponseWriterBuffer * http.Header * (Z * option error) :=
  let '(r, rw', _) := Write p rw no_world in (rw', h, r).

#[export] Instance Buffer_ResponseWriter : ResponseWriter ResponseWriterBuffer := {
  rw_Header := Header;
  rw_WriteHeader := Buffer_WriteHeader;
  rw_Write := Buffer_Write;
}.

(** * Properties *)

(** ** Canonical keys *)

Section textproto_facts.

Import textproto.

Lemma canon_byte_idem upper c :
  canon_byte upper (canon_byte upper c) = canon_byte upper c.
Proof.
  destruct upper; destruct c as [[] [] [] [] [] [] [] []]; vm_compute; reflexivity.
Qed.

Lemma canon_byte_valid upper c :
  validHeaderFieldByte (canon_byte upper c) = validHeaderFieldByte c.
Proof.
  destruct upper; destruct c as [[] [] [] [] [] [] [] []]; vm_compute; reflexivity.
Qed.

Lemma canon_loop_idem a : ∀ upper,
  canon_loop upper (canon_loop upper a) = canon_loop upper a.
Proof.
  induction a as [|c a IH]; intros upper; simpl; [reflexivity|].
  rewrite canon_byte_idem. f_equal. apply IH.
Qed.

Lemma canon_loop_valid a : ∀ upper,
  all_valid (canon_loop upper a) = all_valid a.
Proof.
  induction a as [|c a IH]; intros upper; simpl; [reflexivity|].
  rewrite canon_byte_valid, IH. reflexivity.
Qed.

(** Canonicalising twice is canonicalising once. *)
Lemma CanonicalMIMEHeaderKey_idem s :
  CanonicalMIMEHeaderKey (CanonicalMIMEHeaderKey s) = CanonicalMIMEHeaderKey s.
Proof.
  unfold CanonicalMIMEHeaderKey.
  destruct (all_valid s) eqn:Hs.
  - rewrite canon_loop_valid, Hs. apply canon_loop_idem.
  - rewrite Hs. reflexivity.
Qed.

End textproto_facts.

(** ** The two loops of the reconciliation *)

Section reconcile_facts.

Import http reconcile effect.

Local Abbreviation canon := textproto.CanonicalMIMEHeaderKey.

Implicit Types (local actual : Header) (ks : list string) (c key : string).
Implicit Types (o : option (list string)) (vs : list string).

Lemma found_elem_of value vs : found value vs = true ↔ value ∈ vs.
Proof.
  induction vs as [|v vs IH]; simpl.
  - split; [discriminate | intros H; inversion H].
  - destruct (String.eqb v value) eqn:E.
    + apply String.eqb_eq in E as ->. split; [intros _; left | reflexivity].
    + apply String.eqb_neq in E. rewrite IH, elem_of_cons.
      split; [intros H; right; exact H | intros [H|H]; [congruence | exact H]].
Qed.

Lemma found_false value vs : found value vs = false ↔ value ∉ vs.
Proof.
  rewrite <- found_elem_of. destruct (found value vs); naive_solver.
Qed.

(** *** The deleting loop *)

Lemma delete_loop_None ks : ∀ local actual c,
  actual !! c = None → delete_loop ks local actual !! c = None.
Proof.
  induction ks as [|k ks IH]; intros local actual c Hc; simpl; [exact Hc|].
  destruct (actual !! k); [|auto].
  destruct (local !! k); [auto|].
  apply IH. unfold Del. destruct (decide (canon k = c)) as [->|Hne].
  - apply lookup_delete_eq.
  - rewrite lookup_delete_ne; assumption.
Qed.

(** A visited sink key that the clone lacks takes its canonical form out
    of the sink. *)
Lemma delete_loop_gone ks : ∀ local actual c k,
  k ∈ ks → is_Some (actual !! k) → local !! k = None → canon k = c →
  delete_loop ks local actual !! c = None.
Proof.
  induction ks as [|k0 ks IH]; intros local actual c k Hin Hk Hl Hc.
  - inversion Hin.
  - simpl. apply elem_of_cons in Hin as [<-|Hin].
    + destruct Hk as [x Hx]. rewrite Hx, Hl.
      apply delete_loop_None. subst c. apply lookup_delete_eq.
    + destruct (actual !! k0) eqn:E0; [|eauto].
      destruct (local !! k0) eqn:L0; [eauto|].
      destruct (decide (canon k0 = k)) as [Heq|Hne].
      * apply delete_loop_None. unfold Del.
        rewrite <- Hc, <- Heq, CanonicalMIMEHeaderKey_idem.
        apply lookup_delete_eq.
      * apply (IH _ _ _ k); try assumption.
        unfold Del. rewrite lookup_delete_ne; assumption.
Qed.

(** A canonical key that no such sink key maps to is left as it was. *)
Lemma delete_loop_kept ks : ∀ local actual c,
  (∀ k, k ∈ ks → is_Some (actual !! k) → local !! k = None → canon k ≠ c) →
  delete_loop ks local actual !! c = actual !! c.
Proof.
  induction ks as [|k0 ks IH]; intros local actual c H; simpl; [reflexivity|].
  assert (Htl : ∀ k, k ∈ ks → is_Some (actual !! k) → local !! k = None → canon k ≠ c).
  { intros k Hin. apply H. right. exact Hin. }
  destruct (actual !! k0) eqn:E0; [|auto].
  destruct (local !! k0) eqn:L0; [auto|].
  assert (Hne : canon k0 ≠ c).
  { apply H; [left | rewrite E0; eauto | exact L0]. }
  rewrite IH.
  - unfold Del. rewrite lookup_delete_ne; [reflexivity | exact Hne].
  - intros k Hin Hk. apply Htl; [exact Hin|].
    unfold Del in Hk. destruct Hk as [x Hx].
    apply lookup_delete_Some in Hx as [_ Hx]. rewrite Hx. eauto.
Qed.

Lemma range_of_elem_of actual ks k :
  range_of actual ks → (k ∈ ks ↔ is_Some (actual !! k)).
Proof.
  unfold range_of. intros ->. rewrite list_elem_of_fmap. split.
  - intros [[k' v] [-> Hin]]. apply elem_of_map_to_list in Hin. simpl. eauto.
  - intros [v Hv]. exists (k, v). split; [reflexivity|].
    apply elem_of_map_to_list. exact Hv.
Qed.

Lemma range_of_NoDup actual ks : range_of actual ks → NoDup ks.
Proof.
  unfold range_of. intros ->. apply NoDup_fst_map_to_list.
Qed.

(** With canonical sink keys the loop keeps exactly the keys of the clone,
    whatever the visiting order. *)
Lemma delete_loop_canonical ks local actual c :
  range_of actual ks → canonical_keys actual →
  delete_loop ks local actual !! c =
    match local !! c with Some _ => actual !! c | None => None end.
Proof.
  intros Hr Hcan.
  destruct (local !! c) eqn:L.
  - apply delete_loop_kept. intros k _ Hk Hl Heq.
    rewrite (Hcan k Hk) in Heq. congruence.
  - destruct (actual !! c) eqn:A.
    + apply (delete_loop_gone _ _ _ _ c); try assumption.
      * apply (range_of_elem_of actual); [exact Hr | rewrite A; eauto].
      * rewrite A; eauto.
      * apply Hcan. rewrite A; eauto.
    + apply delete_loop_None. exact A.
Qed.

(** *** The copying loop *)

Lemma copy_value_lookup key actual value c :
  copy_value key actual value !! c =
    if decide (canon key = c) then append_one (actual !! c) value else actual !! c.
Proof.
  unfold copy_value, append_one, Values, Add.
  destruct (decide (canon key = c)) as [<-|Hne].
  - destruct (found value (default [] (actual !! canon key))); [reflexivity|].
    apply lookup_insert_eq.
  - destruct (found value (default [] (actual !! canon key))); [reflexivity|].
    rewrite lookup_insert_ne; [reflexivity | exact Hne].
Qed.

Lemma copy_values_lookup key vs : ∀ actual c,
  fold_left (copy_value key) vs actual !! c =
    if decide (canon key = c) then append_missing vs (actual !! c) else actual !! c.
Proof.
  induction vs as [|v vs IH]; intros actual c; simpl.
  - destruct (decide (canon key = c)); reflexivity.
  - rewrite IH, copy_value_lookup. unfold append_missing.
    destruct (decide (canon key = c)); reflexivity.
Qed.

Lemma append_missing_app vs1 vs2 o :
  append_missing (vs1 ++ vs2) o = append_missing vs2 (append_missing vs1 o).
Proof. unfold append_missing. apply fold_left_app. Qed.

(** Under each canonical key the copying loop appends the offered values
    that are missing, in the order in which they are offered. *)
Lemma copy_loop_lookup ks : ∀ local actual c,
  copy_loop ks local actual !! c = append_missing (offered c ks local) (actual !! c).
Proof.
  induction ks as [|k ks IH]; intros local actual c; [reflexivity|].
  unfold copy_loop in *. simpl. rewrite IH, copy_values_lookup.
  unfold offered. rewrite filter_cons.
  destruct (decide (canon k = c)) as [Heq|Hne].
  - simpl. rewrite append_missing_app. reflexivity.
  - reflexivity.
Qed.

Lemma filter_agree (P Q : string → Prop)
    `{!∀ k, Decision (P k), !∀ k, Decision (Q k)} ks :
  (∀ k, k ∈ ks → (P k ↔ Q k)) → filter P ks = filter Q ks.
Proof.
  induction ks as [|k ks IH]; intros Hag; [reflexivity|].
  assert (Hk : P k ↔ Q k) by (apply Hag; left).
  assert (Htl : filter P ks = filter Q ks).
  { apply IH. intros k' Hin. apply Hag. right. exact Hin. }
  rewrite !filter_cons, Htl.
  destruct (decide (P k)), (decide (Q k)); tauto.
Qed.

Lemma filter_eq_NoDup ks c :
  NoDup ks → filter (λ k, k = c) ks = if decide (c ∈ ks) then [c] else [].
Proof.
  induction 1 as [|k ks Hk Hnd IH].
  - destruct (decide (c ∈ [])) as [Hin|_]; [inversion Hin | reflexivity].
  - rewrite filter_cons, IH.
    destruct (decide (k = c)) as [->|Hne], (decide (c ∈ ks)) as [Hin|Hin],
      (decide (c ∈ _ :: ks)) as [Hin'|Hin'];
      rewrite ?elem_of_cons in Hin'; try reflexivity; try tauto.
    destruct Hin' as [->|Hin']; tauto.
Qed.

(** With canonical clone keys, a key is offered its own values. *)
Lemma offered_canonical ks local c :
  range_of local ks → canonical_keys local →
  offered c ks local = default [] (local !! c).
Proof.
  intros Hr Hcan. unfold offered.
  assert (Hf : filter (λ k, canon k = c) ks = filter (λ k, k = c) ks).
  { apply filter_agree. intros k Hin.
    rewrite Hcan; [reflexivity|]. apply (range_of_elem_of local ks); assumption. }
  rewrite Hf, filter_eq_NoDup by (eapply range_of_NoDup; eassumption).
  destruct (decide (c ∈ ks)) as [Hin|Hin]; simpl.
  - apply app_nil_r.
  - rewrite (range_of_elem_of local ks c Hr) in Hin.
    destruct (local !! c); [exfalso; eauto | reflexivity].
Qed.

End reconcile_facts.

(** ** What the copying loop appends *)

Section append_facts.

Import http reconcile effect.

Implicit Types (o : option (list string)) (vs : list string).

(** The sink's values stay in place as a prefix; what follows is every
    offered value the sink lacked, once each. *)
Lemma append_missing_spec vs : ∀ o,
  ∃ nw, default [] (append_missing vs o) = default [] o ++ nw
        ∧ NoDup nw
        ∧ ∀ v, v ∈ nw ↔ v ∈ vs ∧ v ∉ default [] o.
Proof.
  induction vs as [|v0 vs IH]; intros o.
  - exists []. simpl. rewrite app_nil_r. split; [reflexivity|].
    split; [constructor|]. intros v. rewrite !elem_of_nil. tauto.
  - unfold append_missing. simpl. fold (append_missing vs (append_one o v0)).
    destruct (IH (append_one o v0)) as (nw & Heq & Hnd & Hin).
    unfold append_one in *.
    destruct (found v0 (default [] o)) eqn:F.
    + apply found_elem_of in F.
      exists nw. split; [exact Heq|]. split; [exact Hnd|].
      intros v. rewrite Hin, elem_of_cons.
      split; [tauto|]. intros [[->|Hv] Hn]; tauto.
    + apply found_false in F. simpl in Heq, Hin.
      exists (v0 :: nw). rewrite Heq, <- app_assoc. split; [reflexivity|].
      split.
      * constructor; [|exact Hnd]. rewrite Hin, elem_of_app, list_elem_of_singleton.
        tauto.
      * intros v. rewrite !elem_of_cons, Hin, elem_of_app, list_elem_of_singleton.
        destruct (decide (v = v0)) as [->|Hne]; tauto.
Qed.

(** No key is created for nothing, and none is dropped. *)
Lemma append_missing_nil o : append_missing [] o = o.
Proof. reflexivity. Qed.

Lemma append_missing_present vs : ∀ o,
  (∀ v, v ∈ vs → v ∈ default [] o) → append_missing vs o = o.
Proof.
  induction vs as [|v0 vs IH]; intros o H; [reflexivity|].
  unfold append_missing. simpl. fold (append_missing vs (append_one o v0)).
  assert (F : found v0 (default [] o) = true).
  { apply found_elem_of, H. left. }
  unfold append_one. rewrite F. apply IH.
  intros v Hv. apply H. right. exact Hv.
Qed.

End append_facts.

(** ** Header reconciliation (claims C1, C6, C9) *)

Section flush_headers_facts.

Import http reconcile effect.

Local Abbreviation canon := textproto.CanonicalMIMEHeaderKey.

(** With canonical keys on both sides, the reconciled sink has, for each
    key, the sink's values when the clone has the key, then the clone's
    missing values; keys the clone lacks are gone. *)
Lemma flush_headers_lookup ks1 ks2 local actual c :
  range_of actual ks1 → range_of local ks2 →
  canonical_keys actual → canonical_keys local →
  flush_headers ks1 ks2 local actual !! c =
    match local !! c with
    | Some vs => append_missing vs (actual !! c)
    | None => None
    end.
Proof.
  intros Hr1 Hr2 Hc1 Hc2. unfold flush_headers.
  rewrite copy_loop_lookup, offered_canonical by assumption.
  rewrite delete_loop_canonical by assumption.
  destruct (local !! c); reflexivity.
Qed.

(** C1 (as amended): for header sets whose keys are all canonical, and for
    every order in which the two loops visit the maps, the reconciled sink
    (a) has no key that the buffer's local set lacks, (b) under every key of
    the local set keeps its own values in place and appends, once each,
    exactly the local values it did not hold, and so (c) holds under such a
    key the same set of values as the local set exactly when the sink's own
    values were all among the local ones: values the sink holds under a key
    the local set keeps are never removed. *)
Theorem flush_headers_merge ks1 ks2 local actual :
  range_of actual ks1 → range_of local ks2 →
  canonical_keys actual → canonical_keys local →
  (∀ k, local !! k = None → flush_headers ks1 ks2 local actual !! k = None)
  ∧ (∀ k vs, local !! k = Some vs →
       ∃ nw, Values (flush_headers ks1 ks2 local actual) k = Values actual k ++ nw
             ∧ NoDup nw
             ∧ ∀ v, v ∈ nw ↔ v ∈ vs ∧ v ∉ Values actual k)
  ∧ (∀ k vs, local !! k = Some vs →
       ((∀ v, v ∈ Values (flush_headers ks1 ks2 local actual) k ↔ v ∈ vs)
        ↔ (∀ v, v ∈ Values actual k → v ∈ vs))).
Proof.
  intros Hr1 Hr2 Hc1 Hc2.
  assert (Hb : ∀ k vs, local !! k = Some vs →
       ∃ nw, Values (flush_headers ks1 ks2 local actual) k = Values actual k ++ nw
             ∧ NoDup nw
             ∧ ∀ v, v ∈ nw ↔ v ∈ vs ∧ v ∉ Values actual k).
  { intros k vs Hk. unfold Values.
    assert (Hck : canon k = k) by (apply Hc2; rewrite Hk; eauto).
    rewrite Hck, flush_headers_lookup, Hk by assumption.
    apply append_missing_spec. }
  split; [|split; [exact Hb|]].
  - intros k Hk. rewrite flush_headers_lookup, Hk by assumption. reflexivity.
  - intros k vs Hk. destruct (Hb k vs Hk) as (nw & -> & _ & Hin).
    split.
    + intros H v Hv. apply H, elem_of_app. left. exact Hv.
    + intros H v. rewrite elem_of_app, Hin. split.
      * intros [Hv|[Hv _]]; [apply H|]; exact Hv.
      * intros Hv. destruct (decide (v ∈ Values actual k)); [left|right]; tauto.
Qed.

(** The value search, the append and the deletion all go through the
    canonical form of the key they are given. *)
Lemma copy_value_canon key actual value :
  copy_value (canon key) actual value = copy_value key actual value.
Proof.
  unfold copy_value, Values, Add. rewrite CanonicalMIMEHeaderKey_idem. reflexivity.
Qed.

Lemma Del_canon key actual : Del (canon key) actual = Del key actual.
Proof. unfold Del. rewrite CanonicalMIMEHeaderKey_idem. reflexivity. Qed.

(** C6: the test that decides a deletion (line 63) is a plain map index, not
    a canonicalising comparison.  With sink {"X-A": ["a"]} and local set
    {"x-a": ["b"]} the sink key is deleted, and "a" with it, although the
    local set holds a case variant of it.  With sink
    {"x-a": ["a"], "X-A": ["b"; "z"]} and local set {"X-A": ["b"]}, in either
    visiting order the sink key "X-A" is deleted although the local set holds
    that very key (its value "z" is lost when the key is built again), while
    "x-a", which the local set lacks, stays. *)
Theorem flush_headers_case_variants :
  let actual : Header := <["x-a" := ["a"]]> {["X-A" := ["b"; "z"]]} in
  let local : Header := {["X-A" := ["b"]]} in
  let kept : Header := <["x-a" := ["a"]]> {["X-A" := ["b"]]} in
  (canon "x-a" = "X-A"
   ∧ local !! "X-A" = Some ["b"] ∧ local !! "x-a" = None
   ∧ delete_loop ["x-a"; "X-A"] local actual = {["x-a" := ["a"]]}
   ∧ delete_loop ["X-A"; "x-a"] local actual = {["x-a" := ["a"]]}
   ∧ flush_headers ["x-a"; "X-A"] ["X-A"] local actual = kept
   ∧ flush_headers ["X-A"; "x-a"] ["X-A"] local actual = kept)
  ∧ (delete_loop ["X-A"] {["x-a" := ["b"]]} {["X-A" := ["a"]]} = ∅
     ∧ flush_headers ["X-A"] ["x-a"] {["x-a" := ["b"]]} {["X-A" := ["a"]]}
         = {["X-A" := ["b"]]}).
Proof. vm_compute. repeat split; reflexivity. Qed.

(** With canonical keys a second reconciliation changes nothing, whatever
    the visiting orders of the two runs. *)
Lemma flush_headers_idem_canonical ks1 ks2 ks1' ks2' local actual :
  range_of actual ks1 → range_of local ks2 →
  range_of (flush_headers ks1 ks2 local actual) ks1' → range_of local ks2' →
  canonical_keys actual → canonical_keys local →
  flush_headers ks1' ks2' local (flush_headers ks1 ks2 local actual)
    = flush_headers ks1 ks2 local actual.
Proof.
  intros Hr1 Hr2 Hr1' Hr2' Hc1 Hc2.
  assert (Hc : canonical_keys (flush_headers ks1 ks2 local actual)).
  { intros k [x Hk]. apply Hc2.
    rewrite flush_headers_lookup in Hk by assumption.
    destruct (local !! k); [eauto | discriminate]. }
  apply map_eq. intros c.
  rewrite (flush_headers_lookup ks1' ks2') by assumption.
  rewrite flush_headers_lookup by assumption.
  destruct (local !! c) as [vs|]; [|reflexivity].
  apply append_missing_present. intros v Hv.
  destruct (append_missing_spec vs (actual !! c)) as (nw & -> & _ & Hin).
  apply elem_of_app.
  destruct (decide (v ∈ default [] (actual !! c))); [left; assumption|].
  right. apply Hin. split; assumption.
Qed.

Lemma delete_loop_subset ks local actual k :
  is_Some (delete_loop ks local actual !! k) → is_Some (actual !! k).
Proof.
  intros Hk. destruct (actual !! k) eqn:E; [eauto|].
  rewrite delete_loop_None in Hk by exact E. exact Hk.
Qed.

(** A key that the copying loop creates is canonical. *)
Lemma copy_loop_new_key ks local actual c :
  actual !! c = None → is_Some (copy_loop ks local actual !! c) → canon c = c.
Proof.
  intros Ha Hc. rewrite copy_loop_lookup, Ha in Hc.
  destruct (decide (canon c = c)) as [|Hne]; [assumption|]. exfalso.
  assert (Hf : filter (λ k, canon k = c) ks = []).
  { clear Hc. induction ks as [|k ks IH]; [reflexivity|].
    rewrite filter_cons_False; [exact IH|]. intros Hk. apply Hne.
    rewrite <- Hk. apply CanonicalMIMEHeaderKey_idem. }
  unfold offered in Hc. rewrite Hf in Hc. destruct Hc; discriminate.
Qed.

(** A second reconciliation that visits the local set in the order of the
    first changes nothing, for all header sets. *)
Lemma flush_headers_idem_same_order ks1 ks1' ks2 local actual :
  range_of actual ks1 →
  flush_headers ks1' ks2 local (flush_headers ks1 ks2 local actual)
    = flush_headers ks1 ks2 local actual.
Proof.
  intros Hr1. set (once := flush_headers ks1 ks2 local actual).
  apply map_eq. intros c.
  assert (Hidem : ∀ o, append_missing (offered c ks2 local)
                         (append_missing (offered c ks2 local) o)
                       = append_missing (offered c ks2 local) o).
  { intros o. apply append_missing_present. intros v Hv.
    destruct (append_missing_spec (offered c ks2 local) o) as (nw & -> & _ & Hin).
    apply elem_of_app.
    destruct (decide (v ∈ default [] o)); [left; assumption|].
    right. apply Hin. split; assumption. }
  unfold flush_headers at 1. rewrite copy_loop_lookup.
  destruct (decide (Exists (λ k, is_Some (once !! k) ∧ local !! k = None ∧ canon k = c)
                      ks1')) as [Hex|Hex].
  - apply Exists_exists in Hex as (k & Hin & Hk & Hl & Hkc).
    rewrite (delete_loop_gone ks1' local once c k) by assumption.
    unfold once, flush_headers. rewrite copy_loop_lookup.
    assert (Hd : delete_loop ks1 local actual !! c = None); [|rewrite Hd; reflexivity].
    destruct (delete_loop ks1 local actual !! k) eqn:Ek.
    + assert (Hak : is_Some (actual !! k)).
      { apply (delete_loop_subset ks1 local). rewrite Ek. eauto. }
      apply (delete_loop_gone ks1 local actual c k); try assumption.
      apply (range_of_elem_of actual); assumption.
    + assert (Hck : canon k = k).
      { apply (copy_loop_new_key ks2 local (delete_loop ks1 local actual));
          assumption. }
      rewrite <- Hkc, Hck. exact Ek.
  - rewrite delete_loop_kept.
    + unfold once, flush_headers. rewrite copy_loop_lookup. apply Hidem.
    + intros k Hin Hk Hl Hkc. apply Hex. apply Exists_exists.
      exists k. repeat split; assumption.
Qed.

(** C9: a second reconciliation can change the sink.  With local set
    {"x-a": ["b"], "x-A": ["c"]} and an empty sink, the first run builds
    "X-A" in the order in which it visits the two local keys; the second run
    deletes "X-A" (the local set has no key spelled so) and builds it again,
    in the order of its own visit. *)
Theorem flush_headers_twice_differs :
  let local : Header := <["x-a" := ["b"]]> {["x-A" := ["c"]]} in
  let once := flush_headers [] ["x-a"; "x-A"] local ∅ in
  let twice := flush_headers ["X-A"] ["x-A"; "x-a"] local once in
  range_of ∅ [] ∧ range_of local ["x-a"; "x-A"]
  ∧ range_of once ["X-A"] ∧ range_of local ["x-A"; "x-a"]
  ∧ once = {["X-A" := ["b"; "c"]]}
  ∧ twice = {["X-A" := ["c"; "b"]]}
  ∧ twice ≠ once.
Proof.
  intros local once twice.
  assert (E1 : once = {["X-A" := ["b"; "c"]]}) by (vm_compute; reflexivity).
  assert (E2 : twice = {["X-A" := ["c"; "b"]]}) by (vm_compute; reflexivity).
  split; [vm_compute; reflexivity|].
  split; [vm_compute; reflexivity|].
  split; [vm_compute; reflexivity|].
  split; [unfold range_of; vm_compute; apply perm_swap|].
  split; [exact E1|]. split; [exact E2|].
  rewrite E1, E2. intros H.
  apply (f_equal (λ m : Header, m !! "X-A")) in H.
  rewrite !lookup_singleton_eq in H. discriminate.
Qed.

Lemma canonical_keys_decide (h : Header) :
  bool_decide (map_Forall (λ k _, canon k = k) h) = true → canonical_keys h.
Proof.
  intros Hb k [v Hv]. apply bool_decide_eq_true in Hb. exact (Hb k v Hv).
Qed.

Lemma flush_headers_merge_witness :
  let actual : Header := <["X" := ["a"; "b"]]> {["Y" := ["c"]]} in
  let local : Header := {["X" := ["a"; "d"]]} in
  (∀ k, local !! k = None → flush_headers ["Y"; "X"] ["X"] local actual !! k = None)
  ∧ (∀ k vs, local !! k = Some vs →
       ∃ nw, Values (flush_headers ["Y"; "X"] ["X"] local actual) k = Values actual k ++ nw
             ∧ NoDup nw
             ∧ ∀ v, v ∈ nw ↔ v ∈ vs ∧ v ∉ Values actual k)
  ∧ (∀ k vs, local !! k = Some vs →
       ((∀ v, v ∈ Values (flush_headers ["Y"; "X"] ["X"] local actual) k ↔ v ∈ vs)
        ↔ (∀ v, v ∈ Values actual k → v ∈ vs))).
Proof.
  intros actual local. apply flush_headers_merge.
  - vm_compute. reflexivity.
  - vm_compute. reflexivity.
  - apply canonical_keys_decide. vm_compute. reflexivity.
  - apply canonical_keys_decide. vm_compute. reflexivity.
Defined.

(** The same run, evaluated: "Y" is gone, "b" stays, "d" is appended. *)
Example flush_headers_merge_run :
  flush_headers ["Y"; "X"] ["X"]
    {["X" := ["a"; "d"]]} (<["X" := ["a"; "b"]]> {["Y" := ["c"]]})
  = {["X" := ["a"; "b"; "d"]]}.
Proof. vm_compute. reflexivity. Qed.

End flush_headers_facts.

(** ** The buffer's methods (claims C2, C3, C4, C7, C8, C10) *)

Section method_facts.

Context {W : Type} `{RW : ResponseWriter W}.

Implicit Types (rw : ResponseWriterBuffer) (σ : World W) (p : list byte).

(** The status write, if any, that [Flush] issues for [rw]. *)
Local Abbreviation status_calls rw :=
  (if Z.eqb (statusCode rw) 0 then [] else [CallWriteHeader (statusCode rw)]).

(** The sink's answer to the body write of [Flush]. *)
Local Abbreviation body_write ks1 ks2 rw σ :=
  (sink_Write (bytes.Bytes (body rw)) (flush_status rw (flush_headers_in ks1 ks2 rw σ))).

(** What the reconciliation leaves in the sink's live map. *)
Lemma flush_headers_in_load (ks1 ks2 : list string) rw σ :
  load (rw_Header (sink σ)) (flush_headers_in ks1 ks2 rw σ) =
    reconcile.flush_headers ks1 ks2 (load (header rw) σ) (load (rw_Header (sink σ)) σ).
Proof.
  unfold flush_headers_in, load at 1, store. simpl.
  rewrite lookup_insert_eq. reflexivity.
Qed.

Lemma Write_open p rw σ :
  closed rw = false →
  Write p rw σ =
    ((Z.of_nat (length p), None),
     {| header := header rw; body := {| bytes.buf := p |};
        statusCode := statusCode rw; closed := false |}, σ).
Proof. intros Hc. unfold Write. rewrite Hc. reflexivity. Qed.

Lemma Write_closed p rw σ :
  closed rw = true → Write p rw σ = ((0, Some ErrBufferClosed), rw, σ).
Proof. intros Hc. unfold Write. rewrite Hc. reflexivity. Qed.

Lemma Flush_closed (ks1 ks2 : list string) rw σ :
  closed rw = true → Flush ks1 ks2 rw σ = ((0, Some ErrBufferClosed), rw, σ).
Proof. intros Hc. unfold Flush. rewrite Hc. reflexivity. Qed.

Lemma Flush_open_error (ks1 ks2 : list string) rw σ n e σ3 :
  closed rw = false → body_write ks1 ks2 rw σ = ((n, Some e), σ3) →
  Flush ks1 ks2 rw σ = ((0, Some e), rw, σ3).
Proof. intros Hc Hw. unfold Flush. rewrite Hc, Hw. reflexivity. Qed.

Lemma Flush_open_ok (ks1 ks2 : list string) rw σ n σ3 :
  closed rw = false → body_write ks1 ks2 rw σ = ((n, None), σ3) →
  Flush ks1 ks2 rw σ =
    ((n, None),
     {| header := header rw; body := body rw;
        statusCode := statusCode rw; closed := true |}, σ3).
Proof. intros Hc Hw. unfold Flush. rewrite Hc, Hw. reflexivity. Qed.

Lemma wire_sink_Write p σ : wire (sink_Write p σ).2 = wire σ ++ [CallWrite p].
Proof.
  unfold sink_Write.
  destruct (rw_Write p (sink σ) (load (rw_Header (sink σ)) σ)) as [[w' h'] r].
  reflexivity.
Qed.

Lemma wire_flush_status rw σ :
  wire (flush_status rw σ) = wire σ ++ status_calls rw.
Proof.
  unfold flush_status. destruct (Z.eqb (statusCode rw) 0).
  - symmetry. apply app_nil_r.
  - unfold sink_WriteHeader.
    destruct (rw_WriteHeader _ _ _) as [w' h']. reflexivity.
Qed.

(** The calls an open buffer's [Flush] issues on the sink: the status, when
    one is set, then the cached body. *)
Lemma wire_Flush_open (ks1 ks2 : list string) rw σ :
  closed rw = false →
  wire (Flush ks1 ks2 rw σ).2 =
    wire σ ++ status_calls rw ++ [CallWrite (bytes.Bytes (body rw))].
Proof.
  intros Hc.
  assert (Hw : wire (body_write ks1 ks2 rw σ).2 =
               wire σ ++ status_calls rw ++ [CallWrite (bytes.Bytes (body rw))]).
  { rewrite wire_sink_Write, wire_flush_status, <- app_assoc. reflexivity. }
  destruct (body_write ks1 ks2 rw σ) as [[n [e|]] σ3] eqn:E.
  - erewrite Flush_open_error by eassumption. exact Hw.
  - erewrite Flush_open_ok by eassumption. exact Hw.
Qed.

(** C2: after [Write P1] and [Write P2] on an open buffer, the second write
    reports [len P2] and no error, the cache holds exactly [P2], the world is
    untouched, and the one body write that [Flush] issues on the sink
    carries exactly [P2]. *)
Theorem Write_last_wins (ks1 ks2 : list string) rw σ (P1 P2 : list byte) :
  closed rw = false →
  let w1 := Write P1 rw σ in
  let w2 := Write P2 w1.1.2 w1.2 in
  w2.1.1 = (Z.of_nat (length P2), None)
  ∧ bytes.Bytes (body w2.1.2) = P2
  ∧ w2.2 = σ
  ∧ wire (Flush ks1 ks2 w2.1.2 w2.2).2 = wire σ ++ status_calls rw ++ [CallWrite P2].
Proof.
  intros Hc w1 w2.
  pose proof (Write_open P1 rw σ Hc) as E1. fold w1 in E1.
  assert (E2 : w2 = ((Z.of_nat (length P2), None),
                     {| header := header rw; body := {| bytes.buf := P2 |};
                        statusCode := statusCode rw; closed := false |}, σ)).
  { subst w2. rewrite E1. cbn [fst snd].
    rewrite Write_open by reflexivity. reflexivity. }
  rewrite E2. cbn [fst snd].
  repeat split. rewrite wire_Flush_open by reflexivity. reflexivity.
Qed.

(** C3: on a closed buffer both [Write] and [Flush] return 0 and
    [ErrBufferClosed], and leave the buffer and the world (the sink, its
    header map, the calls it received) exactly as they were. *)
Theorem closed_buffer_rejects (ks1 ks2 : list string) rw σ p :
  closed rw = true →
  Write p rw σ = ((0, Some ErrBufferClosed), rw, σ)
  ∧ Flush ks1 ks2 rw σ = ((0, Some ErrBufferClosed), rw, σ).
Proof.
  intros Hc. split; [apply Write_closed | apply Flush_closed]; exact Hc.
Qed.

(** C4: when the sink's body write returns an error [e], [Flush] returns 0
    and that same [e], hands back the buffer unchanged (still open), and
    leaves the world as the sink's failed write left it after the header
    reconciliation and the status write: nothing is undone. *)
Theorem Flush_sink_error (ks1 ks2 : list string) rw σ n e σ3 :
  closed rw = false →
  body_write ks1 ks2 rw σ = ((n, Some e), σ3) →
  Flush ks1 ks2 rw σ = ((0, Some e), rw, σ3)
  ∧ closed (Flush ks1 ks2 rw σ).1.2 = false
  ∧ wire σ3 = wire σ ++ status_calls rw ++ [CallWrite (bytes.Bytes (body rw))].
Proof.
  intros Hc Hw. rewrite (Flush_open_error _ _ _ _ n e σ3) by assumption.
  split; [reflexivity|]. split; [exact Hc|].
  change σ3 with (((n, Some e), σ3).2). rewrite <- Hw.
  rewrite wire_sink_Write, wire_flush_status, <- app_assoc. reflexivity.
Qed.


Lemma run_op_closed o rw σ :
  is_new o = false → closed rw = true → closed (run_op (rw, σ) o).1 = true.
Proof.
  intros Hn Hc. destruct o as [|f|p|code|ks1 ks2]; simpl; try exact Hc.
  - discriminate.
  - rewrite Write_closed by exact Hc. exact Hc.
  - rewrite Flush_closed by exact Hc. exact Hc.
Qed.

Lemma run_ops_closed ops : ∀ rw σ,
  Forall (λ o, is_new o = false) ops → closed rw = true →
  closed (run_ops ops (rw, σ)).1 = true.
Proof.
  induction ops as [|o ops IH]; intros rw σ Hf Hc; [exact Hc|].
  inversion Hf as [|? ? Ho Hops]; subst.
  change (run_ops (o :: ops) (rw, σ)) with (run_ops ops (run_op (rw, σ) o)).
  pose proof (run_op_closed o rw σ Ho Hc) as Hc'.
  destruct (run_op (rw, σ) o) as [rw' σ']. apply IH; assumption.
Qed.

(** C8: when the sink's body write succeeds with [n] bytes, [Flush] returns
    [n] and no error and hands back the buffer closed; whatever the caller
    then does with this buffer (header changes, [Write], [WriteHeader],
    [Flush], in any number and order), it stays closed. *)
Theorem Flush_success_closes (ks1 ks2 : list string) rw σ n σ3 ops :
  closed rw = false →
  body_write ks1 ks2 rw σ = ((n, None), σ3) →
  Forall (λ o, is_new o = false) ops →
  let out := Flush ks1 ks2 rw σ in
  out.1.1 = (n, None)
  ∧ closed out.1.2 = true
  ∧ out.2 = σ3
  ∧ closed (run_ops ops (out.1.2, out.2)).1 = true.
Proof.
  intros Hc Hw Hops out. subst out.
  rewrite (Flush_open_ok _ _ _ _ n σ3) by assumption. simpl.
  repeat split. apply run_ops_closed; [exact Hops | reflexivity].
Qed.

(** C10: [WriteHeader] has no error result and no closed check: on every
    buffer, open or closed, it stores the code over the previous one, leaves
    every other field as it was, and leaves the world untouched. *)
Theorem WriteHeader_unconditional code rw σ :
  statusCode (WriteHeader code rw σ).1 = code
  ∧ closed (WriteHeader code rw σ).1 = closed rw
  ∧ header (WriteHeader code rw σ).1 = header rw
  ∧ body (WriteHeader code rw σ).1 = body rw
  ∧ (WriteHeader code rw σ).2 = σ.
Proof. repeat split. Qed.

End method_facts.

(** ** Buffers that are never flushed (claim C5) *)

Section never_flushed.

Context {W : Type} `{RW : ResponseWriter W}.

Implicit Types (rw : ResponseWriterBuffer) (σ τ : World W) (l : loc).

Lemma Clone_fresh l σ : heap σ !! (Clone l σ).1 = None.
Proof.
  unfold Clone. simpl. apply not_elem_of_dom. apply is_fresh.
Qed.

Lemma New_preserves σ τ :
  sink τ = sink σ → wire τ = wire σ →
  (∀ l, is_Some (heap σ !! l) → heap τ !! l = heap σ !! l) →
  preserves σ (New τ).
Proof.
  intros Hs Hw Hh. unfold New, Clone, preserves. simpl.
  pose proof (Clone_fresh (rw_Header (sink τ)) τ) as Hf. simpl in Hf.
  assert (Hnew : heap σ !! fresh (dom (heap τ)) = None).
  { destruct (heap σ !! fresh (dom (heap τ))) eqn:E; [|reflexivity].
    rewrite <- Hh, Hf in E by (rewrite E; eauto). discriminate. }
  repeat split; try assumption.
  intros l Hl. rewrite lookup_insert_ne; [apply Hh; exact Hl|].
  intros <-. rewrite Hnew in Hl. destruct Hl; discriminate.
Qed.

Lemma run_op_preserves σ st o :
  is_flush o = false → preserves σ st → preserves σ (run_op st o).
Proof.
  intros Ho (Hs & Hw & Hh & Hb). destruct st as [rw τ]. simpl in *.
  destruct o as [|f|p|code|ks1 ks2]; simpl.
  - apply New_preserves; assumption.
  - unfold preserves, mutate, store, Header. simpl. repeat split; try assumption.
    intros l Hl. rewrite lookup_insert_ne; [apply Hh; exact Hl|].
    intros <-. rewrite Hb in Hl. destruct Hl; discriminate.
  - unfold Write. destruct (closed rw); simpl; repeat split; assumption.
  - repeat split; assumption.
  - discriminate.
Qed.

Lemma run_ops_preserves σ ops : ∀ st,
  Forall (λ o, is_flush o = false) ops → preserves σ st →
  preserves σ (run_ops ops st).
Proof.
  induction ops as [|o ops IH]; intros st Hf Hp; [exact Hp|].
  inversion Hf as [|? ? Ho Hops]; subst.
  change (run_ops (o :: ops) st) with (run_ops ops (run_op st o)).
  apply IH; [exact Hops|]. apply run_op_preserves; assumption.
Qed.

(** C5: [New] puts a copy of the sink's header set in a map of its own
    (changing the sink's map afterwards does not change the copy), with an
    empty cache, status 0 and the buffer open; and after any sequence of
    [New], changes of the buffer's header set, [Write] and [WriteHeader]
    (no [Flush]) the sink, its header set, every other map that existed
    before, and the calls the sink received are what they were before the
    construction. *)
Theorem no_flush_no_sink_change σ ops :
  is_Some (heap σ !! rw_Header (sink σ)) →
  Forall (λ o, is_flush o = false) ops →
  let st0 := New σ in
  let st := run_ops ops st0 in
  (Header st0.1 ≠ rw_Header (sink σ)
   ∧ load (Header st0.1) st0.2 = load (rw_Header (sink σ)) σ
   ∧ (∀ f, load (Header st0.1) (mutate (rw_Header (sink σ)) f st0.2)
           = load (Header st0.1) st0.2)
   ∧ body st0.1 = bytes.empty ∧ statusCode st0.1 = 0 ∧ closed st0.1 = false)
  ∧ (sink st.2 = sink σ
     ∧ wire st.2 = wire σ
     ∧ load (rw_Header (sink σ)) st.2 = load (rw_Header (sink σ)) σ
     ∧ ∀ l, is_Some (heap σ !! l) → heap st.2 !! l = heap σ !! l).
Proof.
  intros Hsink Hops st0 st.
  assert (H0 : preserves σ st0) by (apply New_preserves; reflexivity).
  assert (Hne : Header st0.1 ≠ rw_Header (sink σ)).
  { destruct H0 as (_ & _ & _ & Hb). unfold Header. intros E.
    rewrite E in Hb. rewrite Hb in Hsink. destruct Hsink; discriminate. }
  split.
  - split; [exact Hne|]. split; [|split; [|repeat split]].
    + unfold load. subst st0. unfold New, Clone, Header, store. simpl.
      rewrite lookup_insert_eq. reflexivity.
    + intros f. unfold load, mutate, store. simpl.
      rewrite lookup_insert_ne; [reflexivity|]. intros E. apply Hne.
      unfold Header. simpl. symmetry. exact E.
  - pose proof (run_ops_preserves σ ops st0 Hops H0) as (Hs & Hw & Hh & _).
    fold st in Hs, Hw, Hh.
    split; [exact Hs|]. split; [exact Hw|]. split; [|exact Hh].
    unfold load. rewrite Hh by exact Hsink. reflexivity.
Qed.

End never_flushed.

(** ** Runs against the recording sink *)

Section recorded_runs.

Import effect.

(** With the recording sink, which leaves its header map alone, the sink's
    header set after the [Flush] of an open buffer is the reconciled one,
    whether the body write succeeds or not. *)
Lemma Recorder_Flush_header (ks1 ks2 : list string) rw (σ : World Recorder) :
  closed rw = false →
  load (rw_Header (sink σ)) (Flush ks1 ks2 rw σ).2 =
    reconcile.flush_headers ks1 ks2 (load (header rw) σ) (load (rw_Header (sink σ)) σ).
Proof.
  intros Hc. unfold Flush. rewrite Hc.
  unfold sink_Write, flush_status, sink_WriteHeader, flush_headers_in, store, load.
  simpl.
  destruct (Z.eqb (statusCode rw) 0); simpl;
    unfold Recorder_Write; simpl; destruct (rec_fail (sink σ)); simpl;
    rewrite ?lookup_insert_eq; reflexivity.
Qed.

(** C1 as stated fails: the sink holds ["a"; "b"] under "X", the buffer's
    local set is changed to hold only ["a"], and after a successful Flush
    the sink still holds "b", which the local set does not. *)
Lemma Flush_not_set_equal :
  let st := New (recorder_world {["X" := ["a"; "b"]]} None) in
  let σ2 := mutate (Header st.1) (insert "X" ["a"]) st.2 in
  let out := Flush ["X"] ["X"] st.1 σ2 in
  out.1.1.2 = None
  ∧ http.range_of (load (rw_Header (sink σ2)) σ2) ["X"]
  ∧ http.range_of (load (Header st.1) σ2) ["X"]
  ∧ ¬ set_equal_per_key (load (rw_Header (sink out.2)) out.2) (load (Header st.1) out.2).
Proof.
  intros st σ2 out.
  split; [vm_compute; reflexivity|].
  split; [vm_compute; reflexivity|].
  split; [vm_compute; reflexivity|].
  intros H. destruct (H "X" "b") as [H1 _].
  assert (E1 : http.Values (load (rw_Header (sink out.2)) out.2) "X" = ["a"; "b"])
    by (vm_compute; reflexivity).
  assert (E2 : http.Values (load (Header st.1) out.2) "X" = ["a"])
    by (vm_compute; reflexivity).
  rewrite E1, E2 in H1.
  assert (Hb : "b" ∈ ["a"]) by (apply H1; right; left).
  apply list_elem_of_singleton in Hb. discriminate.
Qed.

Lemma Write_last_wins_witness :
  let st := New (recorder_world ∅ None) in
  let w1 := Write hello st.1 st.2 in
  let w2 := Write world w1.1.2 w1.2 in
  closed st.1 = false
  ∧ (w2.1.1 = (5, None)
     ∧ bytes.Bytes (body w2.1.2) = world
     ∧ w2.2 = st.2
     ∧ wire (Flush [] [] w2.1.2 w2.2).2 = [CallWrite world]).
Proof.
  intros st w1 w2. split; [reflexivity|].
  exact (Write_last_wins [] [] st.1 st.2 hello world eq_refl).
Defined.

(** The spec's own run: write "hello", write "world", commit; the sink's
    body is "world". *)
Example hello_world_body :
  let st := New (recorder_world ∅ None) in
  let w1 := Write hello st.1 st.2 in
  let w2 := Write world w1.1.2 w1.2 in
  let out := Flush [] [] w2.1.2 w2.2 in
  out.1.1 = (5, None) ∧ rec_body (sink out.2) = world.
Proof. vm_compute. split; reflexivity. Qed.

Lemma closed_buffer_rejects_witness :
  let st := New (recorder_world ∅ None) in
  let out := Flush [] [] st.1 st.2 in
  (out.1.1 = (0, None) ∧ closed out.1.2 = true)
  ∧ (Write hello out.1.2 out.2 = ((0, Some ErrBufferClosed), out.1.2, out.2)
     ∧ Flush [] [] out.1.2 out.2 = ((0, Some ErrBufferClosed), out.1.2, out.2)).
Proof.
  intros st out. split; [split; vm_compute; reflexivity|].
  apply closed_buffer_rejects. vm_compute. reflexivity.
Defined.

Lemma Flush_sink_error_witness :
  let rw := failing_run.1 in
  let σ := failing_run.2 in
  let σ3 := (sink_Write (bytes.Bytes (body rw))
               (flush_status rw (flush_headers_in ["X"] ["Y"] rw σ))).2 in
  (Flush ["X"] ["Y"] rw σ = ((0, Some (ErrSink "broken pipe")), rw, σ3)
   ∧ closed (Flush ["X"] ["Y"] rw σ).1.2 = false
   ∧ wire σ3 = wire σ ++ [CallWriteHeader 404] ++ [CallWrite []])
  ∧ load (rw_Header (sink σ)) σ = {["X" := ["a"]]}
  ∧ load (rw_Header (sink σ3)) σ3 = {["Y" := ["b"]]}
  ∧ rec_code (sink σ) = 0 ∧ rec_code (sink σ3) = 404.
Proof.
  intros rw σ σ3. split.
  - apply (Flush_sink_error ["X"] ["Y"] rw σ 0 (ErrSink "broken pipe") σ3).
    + vm_compute. reflexivity.
    + vm_compute. reflexivity.
  - vm_compute. repeat split; reflexivity.
Defined.


Lemma Flush_success_closes_witness :
  let st := New (recorder_world ∅ None) in
  let rw := (Write hello st.1 st.2).1.2 in
  let σ := st.2 in
  let ops := [OpWrite world; OpWriteHeader 500; OpFlush [] []; OpHeader id] in
  let out := Flush [] [] rw σ in
  out.1.1 = (5, None)
  ∧ closed out.1.2 = true
  ∧ out.2 = (sink_Write hello σ).2
  ∧ closed (run_ops ops (out.1.2, out.2)).1 = true.
Proof.
  intros st rw σ ops out.
  apply (Flush_success_closes [] [] rw σ 5 (sink_Write hello σ).2 ops).
  - vm_compute. reflexivity.
  - vm_compute. reflexivity.
  - repeat constructor.
Defined.

Lemma no_flush_no_sink_change_witness :
  let σ := recorder_world {["X" := ["a"]]} None in
  let ops := [OpHeader (insert "Content-Type" ["application/json"]);
              OpWrite hello; OpWriteHeader 404; OpNew;
              OpHeader (delete "X"); OpWrite world] in
  let st0 := New σ in
  let st := run_ops ops st0 in
  (Header st0.1 ≠ rw_Header (sink σ)
   ∧ load (Header st0.1) st0.2 = load (rw_Header (sink σ)) σ
   ∧ (∀ f, load (Header st0.1) (mutate (rw_Header (sink σ)) f st0.2)
           = load (Header st0.1) st0.2)
   ∧ body st0.1 = bytes.empty ∧ statusCode st0.1 = 0 ∧ closed st0.1 = false)
  ∧ (sink st.2 = sink σ
     ∧ wire st.2 = wire σ
     ∧ load (rw_Header (sink σ)) st.2 = load (rw_Header (sink σ)) σ
     ∧ ∀ l, is_Some (heap σ !! l) → heap st.2 !! l = heap σ !! l).
Proof.
  intros σ ops. apply no_flush_no_sink_change.
  - exists {["X" := ["a"]]}. reflexivity.
  - repeat constructor.
Defined.

End recorded_runs.

(** * Further properties of the reconciliation *)

Section reconcile_more.

Import http reconcile effect header_api.

Local Abbreviation canon := textproto.CanonicalMIMEHeaderKey.

Implicit Types (local actual h : Header) (ks : list string) (c key : string).

(** The deleting loop only removes entries. *)
Lemma delete_loop_lookup_Some ks : ∀ local actual c vs,
  delete_loop ks local actual !! c = Some vs → actual !! c = Some vs.
Proof.
  induction ks as [|k ks IH]; intros local actual c vs H; simpl in H; [exact H|].
  destruct (actual !! k); [|eauto].
  destruct (local !! k); [eauto|].
  apply IH in H. unfold Del in H. apply lookup_delete_Some in H as [_ H]. exact H.
Qed.

Lemma delete_loop_orders ks ks' local actual :
  range_of actual ks → range_of actual ks' →
  delete_loop ks local actual = delete_loop ks' local actual.
Proof.
  intros Hr Hr'. apply map_eq. intros c.
  destruct (decide (Exists (λ k, is_Some (actual !! k) ∧ local !! k = None ∧ canon k = c)
                      ks)) as [Hex|Hex].
  - apply Exists_exists in Hex as (k & Hin & Hk & Hl & Hkc).
    rewrite (delete_loop_gone ks local actual c k) by assumption.
    rewrite (delete_loop_gone ks' local actual c k); try assumption; [reflexivity|].
    apply (range_of_elem_of actual); assumption.
  - rewrite !delete_loop_kept; [reflexivity| |].
    + intros k Hin Hk Hl Hkc. apply Hex, Exists_exists. exists k.
      split; [apply (range_of_elem_of actual); assumption|]. repeat split; assumption.
    + intros k Hin Hk Hl Hkc. apply Hex, Exists_exists. exists k.
      repeat split; assumption.
Qed.

(** X1: which keys lines 62-66 delete, and that the visiting order does not
    matter.  For all header sets, any two orders in which the [range] may
    visit the sink's map leave the same map; a key is absent from it exactly
    when it was absent before or is the canonical form of a sink key that the
    clone lacks; and a key that stays keeps its values. *)
Theorem delete_loop_order_irrelevant ks ks' local actual :
  range_of actual ks → range_of actual ks' →
  delete_loop ks local actual = delete_loop ks' local actual
  ∧ (∀ c, delete_loop ks local actual !! c = None
          ↔ actual !! c = None
            ∨ ∃ k, is_Some (actual !! k) ∧ local !! k = None ∧ canon k = c)
  ∧ ∀ c vs, delete_loop ks local actual !! c = Some vs → actual !! c = Some vs.
Proof.
  intros Hr Hr'. split; [apply delete_loop_orders; assumption|].
  split; [|intros c vs; apply delete_loop_lookup_Some].
  intros c. split.
  - intros Hn.
    destruct (decide (Exists (λ k, is_Some (actual !! k) ∧ local !! k = None ∧ canon k = c)
                        ks)) as [Hex|Hex].
    + apply Exists_exists in Hex as (k & _ & Hk). right. exists k. exact Hk.
    + left. rewrite <- Hn. symmetry. apply delete_loop_kept.
      intros k Hin Hk Hl Hkc. apply Hex, Exists_exists. exists k.
      repeat split; assumption.
  - intros [Hn|(k & Hk & Hl & Hkc)].
    + apply delete_loop_None. exact Hn.
    + apply (delete_loop_gone ks local actual c k); try assumption.
      apply (range_of_elem_of actual); assumption.
Qed.

Lemma canonical_distinct h : canonical_keys h → distinct_canonical h.
Proof.
  intros Hc k k' Hk Hk' E. rewrite (Hc k Hk), (Hc k' Hk') in E. exact E.
Qed.

Lemma short_Permutation_eq (l l' : list string) :
  NoDup l → (∀ x y, x ∈ l → y ∈ l → x = y) → l ≡ₚ l' → l = l'.
Proof.
  intros Hnd Hall Hp. destruct l as [|x [|y l]].
  - apply Permutation_nil_l in Hp. exact Hp.
  - apply Permutation_singleton_l in Hp. exact Hp.
  - exfalso. apply NoDup_cons in Hnd as [Hx _]. apply Hx.
    rewrite (Hall x y); [left | left | right; left].
Qed.

(** When no two local keys share a canonical form, a canonical key is offered
    the same values in every visiting order. *)
Lemma offered_orders c ks ks' local :
  range_of local ks → range_of local ks' → distinct_canonical local →
  offered c ks local = offered c ks' local.
Proof.
  intros Hr Hr' Hd. unfold offered. f_equal. f_equal.
  apply short_Permutation_eq.
  - apply NoDup_filter. eapply range_of_NoDup. exact Hr.
  - intros x y Hx Hy. apply list_elem_of_filter in Hx as [Ex Hx], Hy as [Ey Hy].
    apply Hd; [apply (range_of_elem_of local ks); assumption
              |apply (range_of_elem_of local ks); assumption | congruence].
  - unfold range_of in *. rewrite Hr, Hr'. reflexivity.
Qed.

Lemma copy_loop_orders ks ks' local actual :
  range_of local ks → range_of local ks' → distinct_canonical local →
  copy_loop ks local actual = copy_loop ks' local actual.
Proof.
  intros Hr Hr' Hd. apply map_eq. intros c.
  rewrite !copy_loop_lookup, (offered_orders c ks ks') by assumption. reflexivity.
Qed.

(** X2: when no two keys of the buffer's local set have the same canonical
    form (as when all of them are canonical), the reconciled sink does not
    depend on the orders in which the two loops visit the maps. *)
Theorem flush_headers_order_irrelevant ks1 ks1' ks2 ks2' local actual :
  range_of actual ks1 → range_of actual ks1' →
  range_of local ks2 → range_of local ks2' →
  distinct_canonical local →
  flush_headers ks1 ks2 local actual = flush_headers ks1' ks2' local actual.
Proof.
  intros H1 H1' H2 H2' Hd. unfold flush_headers.
  rewrite (delete_loop_orders ks1 ks1') by assumption.
  apply copy_loop_orders; assumption.
Qed.

(** X3: a second reconciliation leaves the sink exactly as the first left
    it (a) for all header sets, canonical or not, when its second loop visits
    the local set in the same order as the first run's, and (b) whatever the
    visiting orders of the two runs when no two keys of the local set have
    the same canonical form. *)
Theorem flush_headers_again ks1 ks1' ks2 ks2' local actual :
  range_of actual ks1 →
  flush_headers ks1' ks2 local (flush_headers ks1 ks2 local actual)
    = flush_headers ks1 ks2 local actual
  ∧ (range_of local ks2 → range_of local ks2' → distinct_canonical local →
     flush_headers ks1' ks2' local (flush_headers ks1 ks2 local actual)
       = flush_headers ks1 ks2 local actual).
Proof.
  intros H1. split; [apply flush_headers_idem_same_order; exact H1|].
  intros H2 H2' Hd.
  rewrite <- (flush_headers_idem_same_order ks1 ks1' ks2 local actual H1) at 2.
  unfold flush_headers at 1 3.
  apply copy_loop_orders; assumption.
Qed.

End reconcile_more.

Section reconcile_values.

Import http reconcile effect header_api.

Local Abbreviation canon := textproto.CanonicalMIMEHeaderKey.

Implicit Types (local actual h : Header) (ks : list string) (c key : string).

Lemma elem_of_concat_map (f : string → list string) (l : list string) v :
  v ∈ concat (map f l) ↔ ∃ x, x ∈ l ∧ v ∈ f x.
Proof.
  induction l as [|x l IH]; simpl.
  - split; [intros H; inversion H | intros (x & H & _); inversion H].
  - rewrite elem_of_app, IH. split.
    + intros [H|(y & Hy & H)]; [exists x; split; [left|exact H]|].
      exists y. split; [right; exact Hy | exact H].
    + intros (y & Hy & H). apply elem_of_cons in Hy as [->|Hy]; [left; exact H|].
      right. exists y. split; assumption.
Qed.

Lemma elem_of_offered c ks local k vs v :
  k ∈ ks → local !! k = Some vs → v ∈ vs → canon k = c → v ∈ offered c ks local.
Proof.
  intros Hk Hl Hv Hc. unfold offered. apply elem_of_concat_map.
  exists k. rewrite Hl. split; [|exact Hv].
  apply list_elem_of_filter. split; assumption.
Qed.

Lemma offered_inv c ks local v :
  v ∈ offered c ks local →
  ∃ k vs, k ∈ ks ∧ local !! k = Some vs ∧ v ∈ vs ∧ canon k = c.
Proof.
  unfold offered. intros H. apply elem_of_concat_map in H as (k & Hk & Hv).
  apply list_elem_of_filter in Hk as [Hc Hk].
  destruct (local !! k) as [ws|] eqn:E; [|inversion Hv].
  exists k, ws. repeat split; assumption.
Qed.

Lemma append_missing_is_Some vs o :
  is_Some (append_missing vs o) → is_Some o ∨ vs ≠ [].
Proof.
  destruct vs as [|v vs]; [left; assumption | right; discriminate].
Qed.

(** X4: every value that the buffer's local set holds under a key is, after
    the reconciliation, among the sink's values for that key; this holds for
    all header sets and visiting orders, canonical keys or not. *)
Theorem flush_headers_keeps_staged ks1 ks2 local actual k vs v :
  range_of local ks2 → local !! k = Some vs → v ∈ vs →
  v ∈ Values (flush_headers ks1 ks2 local actual) k.
Proof.
  intros Hr Hl Hv. unfold Values, flush_headers. rewrite copy_loop_lookup.
  assert (Hoff : v ∈ offered (canon k) ks2 local).
  { apply (elem_of_offered _ _ _ k vs); try assumption; [|reflexivity].
    apply (range_of_elem_of local); [exact Hr | rewrite Hl; eauto]. }
  destruct (append_missing_spec (offered (canon k) ks2 local)
              (delete_loop ks1 local actual !! canon k)) as (nw & -> & _ & Hin).
  apply elem_of_app.
  destruct (decide (v ∈ default [] (delete_loop ks1 local actual !! canon k)));
    [left; assumption|].
  right. apply Hin. split; assumption.
Qed.

(** X5: the reconciliation creates no key other than the canonical form of a
    local key that holds at least one value: a key of the reconciled sink was
    a key of the sink before, or is canonical and is the canonical form of
    such a local key.  A local key with an empty list of values creates
    nothing. *)
Theorem flush_headers_keys ks1 ks2 local actual c :
  is_Some (flush_headers ks1 ks2 local actual !! c) →
  is_Some (actual !! c)
  ∨ (canon c = c
     ∧ ∃ k vs, k ∈ ks2 ∧ local !! k = Some vs ∧ vs ≠ [] ∧ canon k = c).
Proof.
  intros H. unfold flush_headers in H.
  destruct (delete_loop ks1 local actual !! c) as [ws|] eqn:E.
  - left. apply (delete_loop_subset ks1 local). rewrite E. eauto.
  - right. split; [apply (copy_loop_new_key ks2 local _ c E H)|].
    rewrite copy_loop_lookup, E in H.
    destruct (offered c ks2 local) as [|v off] eqn:Eo.
    { destruct H; discriminate. }
    assert (Hv : v ∈ offered c ks2 local) by (rewrite Eo; left).
    apply offered_inv in Hv as (k & vs & Hk & Hl & Hv & Hc).
    exists k, vs. repeat split; try assumption.
    intros ->. inversion Hv.
Qed.

Lemma append_missing_NoDup vs o :
  NoDup (default [] o) → NoDup (default [] (append_missing vs o)).
Proof.
  intros Hnd. destruct (append_missing_spec vs o) as (nw & -> & Hnw & Hin).
  apply NoDup_app. split; [exact Hnd|]. split; [|exact Hnw].
  intros v Hv Hv'. apply Hin in Hv' as [_ Hv']. contradiction.
Qed.

(** X6: the reconciliation never makes a value appear twice: if no key of
    the sink holds a value twice before, none does after, whatever the local
    set holds (duplicates included) and whatever the visiting orders. *)
Theorem flush_headers_no_dup ks1 ks2 local actual :
  no_dup_values actual → no_dup_values (flush_headers ks1 ks2 local actual).
Proof.
  intros Hnd c vs H. unfold flush_headers in H. rewrite copy_loop_lookup in H.
  change vs with (default [] (Some vs)). rewrite <- H.
  apply append_missing_NoDup.
  destruct (delete_loop ks1 local actual !! c) as [ws|] eqn:E; [|constructor].
  apply delete_loop_lookup_Some in E. exact (Hnd c ws E).
Qed.

(** A buffer's set that was not changed since [New] reconciles to no change. *)
Lemma flush_headers_same ks1 ks2 h :
  range_of h ks1 → range_of h ks2 → canonical_keys h →
  flush_headers ks1 ks2 h h = h.
Proof.
  intros H1 H2 Hc. apply map_eq. intros c.
  rewrite flush_headers_lookup by assumption.
  destruct (h !! c) as [vs|]; [|reflexivity].
  apply append_missing_present. intros v Hv. exact Hv.
Qed.

Lemma Header_Set_canonical key value h :
  canonical_keys h → canonical_keys (Header_Set key value h).
Proof.
  intros Hc k Hk. unfold Header_Set in Hk.
  destruct (decide (canon key = k)) as [<-|Hne].
  - apply CanonicalMIMEHeaderKey_idem.
  - rewrite lookup_insert_ne in Hk by exact Hne. apply Hc, Hk.
Qed.

(** X7: [Set] on the buffer's set does not act as [Set] on the sink.  With
    canonical sink keys, reconciling a clone on which only [Set(key, value)]
    was called adds [value] under [key] when the sink lacks it and changes
    nothing otherwise: values the sink already holds under [key] stay, and
    stay first, so the sink's [Get(key)] still answers the old first value
    when there is one. *)
Theorem flush_headers_after_Set ks1 ks2 key value h :
  range_of h ks1 → range_of (Header_Set key value h) ks2 → canonical_keys h →
  flush_headers ks1 ks2 (Header_Set key value h) h = copy_value key h value
  ∧ Values (copy_value key h value) key
      = Values h key ++ (if found value (Values h key) then [] else [value])
  ∧ Header_Get (copy_value key h value) key
      = match Values h key with [] => value | v :: _ => v end.
Proof.
  intros H1 H2 Hc.
  assert (Hv : Values (copy_value key h value) key
               = Values h key ++ (if found value (Values h key) then [] else [value])).
  { unfold Values at 1. rewrite copy_value_lookup, decide_True by reflexivity.
    unfold append_one. fold (Values h key).
    destruct (found value (Values h key)); [symmetry; apply app_nil_r | reflexivity]. }
  split; [|split; [exact Hv|]].
  - apply map_eq. intros c.
    rewrite flush_headers_lookup; try assumption;
      [|apply Header_Set_canonical; exact Hc].
    rewrite copy_value_lookup. unfold Header_Set.
    destruct (decide (canon key = c)) as [<-|Hne].
    + rewrite lookup_insert_eq. reflexivity.
    + rewrite lookup_insert_ne by exact Hne.
      destruct (h !! c) as [vs|]; [|reflexivity].
      apply append_missing_present. intros v Hin. exact Hin.
  - unfold Header_Get. rewrite Hv.
    destruct (Values h key) as [|v0 vs] eqn:E; [reflexivity|reflexivity].
Qed.

End reconcile_values.

Section reconcile_added.

Import http reconcile effect header_api.

Local Abbreviation canon := textproto.CanonicalMIMEHeaderKey.

Implicit Types (local actual h : Header) (ks : list string) (c key : string).

Lemma Add_lookup key value h c :
  Add key value h !! c =
    if decide (canon key = c) then Some (default [] (h !! c) ++ [value]) else h !! c.
Proof.
  unfold Add. destruct (decide (canon key = c)) as [<-|Hne].
  - apply lookup_insert_eq.
  - apply lookup_insert_ne. exact Hne.
Qed.

Lemma Add_canonical key value h : canonical_keys h → canonical_keys (Add key value h).
Proof.
  intros Hc k Hk. rewrite Add_lookup in Hk.
  destruct (decide (canon key = k)) as [<-|Hne]; [|apply Hc, Hk].
  apply CanonicalMIMEHeaderKey_idem.
Qed.

Lemma Add_extends key value h c vs :
  h !! c = Some vs → ∃ ws, Add key value h !! c = Some (vs ++ ws).
Proof.
  intros H. rewrite Add_lookup, H. destruct (decide (canon key = c)).
  - exists [value]. reflexivity.
  - exists []. rewrite app_nil_r. reflexivity.
Qed.

Lemma add_values_canonical key values : ∀ h,
  canonical_keys h → canonical_keys (fold_left (λ h value, Add key value h) values h).
Proof.
  induction values as [|v values IH]; intros h Hc; [exact Hc|].
  simpl. apply IH, Add_canonical, Hc.
Qed.

Lemma add_values_extends key values : ∀ h c vs,
  h !! c = Some vs →
  ∃ ws, fold_left (λ h value, Add key value h) values h !! c = Some (vs ++ ws).
Proof.
  induction values as [|v values IH]; intros h c vs H; simpl.
  - exists []. rewrite app_nil_r. exact H.
  - destruct (Add_extends key v h c vs H) as [ws1 H1].
    destruct (IH _ c _ H1) as [ws2 H2].
    exists (ws1 ++ ws2). rewrite H2, app_assoc. reflexivity.
Qed.

Lemma add_all_canonical table : ∀ h,
  canonical_keys h → canonical_keys (add_all table h).
Proof.
  induction table as [|kv table IH]; intros h Hc; [exact Hc|].
  unfold add_all. simpl. apply IH, add_values_canonical, Hc.
Qed.

Lemma add_all_extends table : ∀ h c vs,
  h !! c = Some vs → ∃ ws, add_all table h !! c = Some (vs ++ ws).
Proof.
  induction table as [|kv table IH]; intros h c vs H.
  - exists []. rewrite app_nil_r. exact H.
  - unfold add_all. simpl.
    destruct (add_values_extends kv.1 kv.2 h c vs H) as [ws1 H1].
    destruct (IH _ c _ H1) as [ws2 H2].
    exists (ws1 ++ ws2). unfold add_all in H2. rewrite H2, app_assoc. reflexivity.
Qed.

(** When the local set holds, under every key of the sink, the sink's values
    followed by more, the reconciled sink holds under every key the same set
    of values as the local set, its own values first. *)
Lemma flush_headers_extension ks1 ks2 local h :
  range_of h ks1 → range_of local ks2 →
  canonical_keys h → canonical_keys local →
  (∀ c vs, h !! c = Some vs → ∃ ws, local !! c = Some (vs ++ ws)) →
  set_equal_per_key (flush_headers ks1 ks2 local h) local
  ∧ ∀ k, Values h k `prefix_of` Values (flush_headers ks1 ks2 local h) k.
Proof.
  intros H1 H2 Hc Hcl Hext.
  assert (Hval : ∀ k, ∃ nw,
            Values (flush_headers ks1 ks2 local h) k = Values h k ++ nw
            ∧ ∀ v, v ∈ nw ↔ v ∈ Values local k ∧ v ∉ Values h k).
  { intros k. unfold Values. rewrite flush_headers_lookup by assumption.
    destruct (local !! canon k) as [vs'|] eqn:El.
    - destruct (append_missing_spec vs' (h !! canon k)) as (nw & E & _ & Hin).
      exists nw. split; assumption.
    - exists []. assert (Eh : h !! canon k = None).
      { destruct (h !! canon k) as [vs|] eqn:Eh; [|reflexivity].
        destruct (Hext _ _ Eh) as [ws Hws]. congruence. }
      rewrite Eh. split; [reflexivity|]. intros v. simpl.
      rewrite elem_of_nil. tauto. }
  assert (Hsub : ∀ k v, v ∈ Values h k → v ∈ Values local k).
  { intros k v. unfold Values. destruct (h !! canon k) as [vs|] eqn:Eh.
    - destruct (Hext _ _ Eh) as [ws ->]. simpl. intros Hv.
      apply elem_of_app. left. exact Hv.
    - simpl. intros Hv. inversion Hv. }
  split.
  - intros k v. destruct (Hval k) as (nw & -> & Hin).
    rewrite elem_of_app, Hin. split.
    + intros [Hv|[Hv _]]; [apply Hsub|]; exact Hv.
    + intros Hv. destruct (decide (v ∈ Values h k)); [left|right]; tauto.
  - intros k. destruct (Hval k) as (nw & -> & _). exists nw. reflexivity.
Qed.

End reconcile_added.

(** * Further properties of the buffer's methods and of its callers *)

Section world_more.

Context {W : Type} `{RW : ResponseWriter W}.

Implicit Types (rw : ResponseWriterBuffer) (σ τ : World W) (l : loc).

Lemma load_store l h σ : load l (store l h σ) = h.
Proof. unfold load, store. simpl. rewrite lookup_insert_eq. reflexivity. Qed.

Lemma load_store_ne l l' h σ : l ≠ l' → load l' (store l h σ) = load l' σ.
Proof.
  intros Hne. unfold load, store. simpl. rewrite lookup_insert_ne by exact Hne.
  reflexivity.
Qed.

Lemma load_mutate l f σ : load l (mutate l f σ) = f (load l σ).
Proof. apply load_store. Qed.

Lemma load_mutate_ne l l' f σ : l ≠ l' → load l' (mutate l f σ) = load l' σ.
Proof. apply load_store_ne. Qed.

Lemma New_header_fresh σ : heap σ !! Header (New σ).1 = None.
Proof. apply (Clone_fresh (rw_Header (sink σ)) σ). Qed.

Lemma New_load_copy σ :
  load (Header (New σ).1) (New σ).2 = load (rw_Header (sink σ)) σ.
Proof. unfold New, Clone, Header. simpl. apply load_store. Qed.

Lemma New_load_old σ l :
  is_Some (heap σ !! l) → load l (New σ).2 = load l σ.
Proof.
  intros Hl. unfold New, Clone. simpl. apply load_store_ne.
  intros E. pose proof (Clone_fresh (rw_Header (sink σ)) σ) as Hf. simpl in Hf.
  rewrite E in Hf. rewrite Hf in Hl. destruct Hl; discriminate.
Qed.

Lemma New_sink σ : sink (New σ).2 = sink σ ∧ wire (New σ).2 = wire σ.
Proof. split; reflexivity. Qed.

(** X8: [Flush] right after [New].  When the sink's header keys are
    canonical, the reconciliation leaves the sink's header set exactly as it
    was, and the sink receives no status write and one body write, of no
    bytes. *)
Theorem Flush_fresh_buffer (ks1 ks2 : list string) σ :
  is_Some (heap σ !! rw_Header (sink σ)) →
  http.canonical_keys (load (rw_Header (sink σ)) σ) →
  http.range_of (load (rw_Header (sink σ)) σ) ks1 →
  http.range_of (load (rw_Header (sink σ)) σ) ks2 →
  let st := New σ in
  load (rw_Header (sink σ)) (flush_headers_in ks1 ks2 st.1 st.2)
    = load (rw_Header (sink σ)) σ
  ∧ wire (Flush ks1 ks2 st.1 st.2).2 = wire σ ++ [CallWrite []].
Proof.
  intros Hs Hc H1 H2 st. split.
  - change (rw_Header (sink σ)) with (rw_Header (sink st.2)) at 1.
    rewrite flush_headers_in_load.
    change (header st.1) with (Header (New σ).1). subst st.
    rewrite New_load_copy. change (sink (New σ).2) with (sink σ).
    rewrite New_load_old by exact Hs.
    apply flush_headers_same; assumption.
  - rewrite wire_Flush_open by reflexivity. reflexivity.
Qed.

(** What a closed buffer keeps through a caller's step. *)
Lemma run_op_closed_frame o rw σ :
  is_new o = false → closed rw = true →
  header (run_op (rw, σ) o).1 = header rw
  ∧ body (run_op (rw, σ) o).1 = body rw
  ∧ closed (run_op (rw, σ) o).1 = true
  ∧ sink (run_op (rw, σ) o).2 = sink σ
  ∧ wire (run_op (rw, σ) o).2 = wire σ
  ∧ ∀ l, l ≠ header rw → heap (run_op (rw, σ) o).2 !! l = heap σ !! l.
Proof.
  intros Hn Hc. destruct o as [|f|p|code|ks1 ks2]; simpl.
  - discriminate.
  - repeat split; try assumption. intros l Hl.
    unfold Header. apply lookup_insert_ne. congruence.
  - rewrite Write_closed by exact Hc. repeat split; assumption.
  - repeat split; assumption.
  - rewrite Flush_closed by exact Hc. repeat split; assumption.
Qed.

(** X9: once a buffer is closed, nothing a caller does with it reaches the
    sink.  Through any sequence of header changes, [Write], [WriteHeader] and
    [Flush] on a closed buffer, the sink, the calls it received and every
    header map other than the buffer's own stay as they were, and the buffer
    keeps its cached body and stays closed; only its status code and its own
    header map can still change. *)
Theorem closed_buffer_inert ops : ∀ rw σ,
  closed rw = true → Forall (λ o, is_new o = false) ops →
  header (run_ops ops (rw, σ)).1 = header rw
  ∧ body (run_ops ops (rw, σ)).1 = body rw
  ∧ closed (run_ops ops (rw, σ)).1 = true
  ∧ sink (run_ops ops (rw, σ)).2 = sink σ
  ∧ wire (run_ops ops (rw, σ)).2 = wire σ
  ∧ ∀ l, l ≠ header rw → heap (run_ops ops (rw, σ)).2 !! l = heap σ !! l.
Proof.
  induction ops as [|o ops IH]; intros rw σ Hc Hf.
  - repeat split. exact Hc.
  - inversion Hf as [|? ? Ho Hops]; subst.
    change (run_ops (o :: ops) (rw, σ)) with (run_ops ops (run_op (rw, σ) o)).
    destruct (run_op_closed_frame o rw σ Ho Hc) as (Eh & Eb & Ec & Es & Ew & Efr).
    destruct (run_op (rw, σ) o) as [rw' σ']. simpl in *.
    destruct (IH rw' σ' Ec Hops) as (Eh' & Eb' & Ec' & Es' & Ew' & Efr').
    rewrite Eh', Eb', Es', Ew', Eh, Eb, Es, Ew. repeat split; try assumption.
    intros l Hl. rewrite Efr' by congruence. apply Efr. exact Hl.
Qed.

(** X10: a [Flush] that failed can be tried again, and the second try repeats
    the status write.  After a [Flush] whose body write the sink refused, the
    buffer is the one that was flushed, and a second [Flush] issues on the
    sink, once more, the status write (when a code is set) and the body
    write. *)
Theorem Flush_retry_repeats (ks1 ks2 ks1' ks2' : list string) rw σ n e σ3 :
  closed rw = false →
  sink_Write (bytes.Bytes (body rw)) (flush_status rw (flush_headers_in ks1 ks2 rw σ))
    = ((n, Some e), σ3) →
  let out := Flush ks1 ks2 rw σ in
  let calls := (if Z.eqb (statusCode rw) 0 then [] else [CallWriteHeader (statusCode rw)])
               ++ [CallWrite (bytes.Bytes (body rw))] in
  out.1.2 = rw
  ∧ wire out.2 = wire σ ++ calls
  ∧ wire (Flush ks1' ks2' out.1.2 out.2).2 = wire σ ++ calls ++ calls.
Proof.
  intros Hc Hw out calls.
  assert (E : out = ((0, Some e), rw, σ3)) by (apply (Flush_open_error _ _ _ _ n); assumption).
  assert (Hw1 : wire out.2 = wire σ ++ calls) by (apply wire_Flush_open; exact Hc).
  split; [rewrite E; reflexivity|]. split; [exact Hw1|].
  rewrite E in *. cbn [fst snd] in *.
  rewrite wire_Flush_open by exact Hc. rewrite Hw1, <- app_assoc. reflexivity.
Qed.

(** X11: two buffers over one sink do not share a header set, and the second
    does not start from what the first has staged.  Whatever change [f] the
    caller made to the first buffer's set, a second [New] on the same sink
    returns a buffer with another map, holding the sink's header set; later
    changes of either map leave the other as it is. *)
Theorem New_twice_independent σ (f : http.Header → http.Header) :
  is_Some (heap σ !! rw_Header (sink σ)) →
  let st1 := New σ in
  let σ1 := mutate (Header st1.1) f st1.2 in
  let st2 := New σ1 in
  Header st2.1 ≠ Header st1.1
  ∧ load (Header st2.1) st2.2 = load (rw_Header (sink σ)) σ
  ∧ load (Header st1.1) st2.2 = f (load (rw_Header (sink σ)) σ)
  ∧ (∀ g, load (Header st1.1) (mutate (Header st2.1) g st2.2) = load (Header st1.1) st2.2)
  ∧ (∀ g, load (Header st2.1) (mutate (Header st1.1) g st2.2) = load (Header st2.1) st2.2).
Proof.
  intros Hs st1 σ1 st2.
  assert (Hne1 : Header st1.1 ≠ rw_Header (sink σ)).
  { intros E. pose proof (New_header_fresh σ) as Hf. fold st1 in Hf.
    rewrite E in Hf. rewrite Hf in Hs. destruct Hs; discriminate. }
  assert (Hal1 : is_Some (heap σ1 !! Header st1.1)).
  { unfold σ1, mutate, store. simpl. rewrite lookup_insert_eq. eauto. }
  assert (Hne : Header st2.1 ≠ Header st1.1).
  { intros E. pose proof (New_header_fresh σ1) as Hf. fold st2 in Hf.
    rewrite E in Hf. rewrite Hf in Hal1. destruct Hal1; discriminate. }
  assert (Hl1 : load (Header st1.1) st2.2 = f (load (rw_Header (sink σ)) σ)).
  { subst st2. rewrite New_load_old by exact Hal1.
    unfold σ1. rewrite load_mutate. subst st1. rewrite New_load_copy. reflexivity. }
  split; [exact Hne|]. split; [|split; [exact Hl1|split]].
  - subst st2. rewrite New_load_copy.
    change (rw_Header (sink σ1)) with (rw_Header (sink σ)).
    unfold σ1. rewrite load_mutate_ne by exact Hne1.
    subst st1. apply New_load_old. exact Hs.
  - intros g. apply load_mutate_ne. exact Hne.
  - intros g. apply load_mutate_ne. congruence.
Qed.

(** X12: the handler of the write test, for every body and every sink.
    Without [Flush] none of its checks fails and the world is what [New] left
    (the sink has received nothing).  With [Flush] the sink receives one call,
    a body write with exactly the bytes written to the buffer, and the
    handler's checks pass exactly when the sink answers that write with the
    length of the body and no error. *)
Theorem write_handler_effect (ResponseBody : list byte) (ks1 ks2 : list string) σ :
  write_handler ResponseBody false ks1 ks2 σ = (true, (New σ).2)
  ∧ wire (write_handler ResponseBody true ks1 ks2 σ).2
      = wire σ ++ [CallWrite ResponseBody]
  ∧ ∃ σr, sink σr = sink σ ∧ wire σr = wire σ
          ∧ write_handler ResponseBody true ks1 ks2 σ
              = (is_nil (sink_Write ResponseBody σr).1.2
                 && Z.eqb (sink_Write ResponseBody σr).1.1
                          (Z.of_nat (length ResponseBody)),
                 (sink_Write ResponseBody σr).2).
Proof.
  set (rw1 := {| header := header (New σ).1; body := {| bytes.buf := ResponseBody |};
                 statusCode := 0; closed := false |}).
  assert (Eh : ∀ flush, write_handler ResponseBody flush ks1 ks2 σ =
            if flush then
              let out := Flush ks1 ks2 rw1 (New σ).2 in
              (is_nil out.1.1.2 && Z.eqb out.1.1.1 (Z.of_nat (length ResponseBody)), out.2)
            else (true, (New σ).2)).
  { intros flush. unfold write_handler, rw1, New, Clone, Write, bytes.Write, bytes.Reset.
    cbn -[Flush fresh Z.of_nat Z.eqb]. rewrite Z.eqb_refl.
    destruct flush; [|reflexivity].
    destruct (Flush ks1 ks2 _ _) as [[[n err] rwb'] σ'']. reflexivity. }
  split; [apply (Eh false)|].
  split.
  - rewrite (Eh true). cbn [snd]. rewrite wire_Flush_open by reflexivity. reflexivity.
  - exists (flush_headers_in ks1 ks2 rw1 (New σ).2).
    split; [reflexivity|]. split; [reflexivity|].
    rewrite (Eh true). cbn zeta.
    destruct (sink_Write ResponseBody (flush_headers_in ks1 ks2 rw1 (New σ).2))
      as [[n [e|]] σ3] eqn:Ew.
    + rewrite (Flush_open_error ks1 ks2 rw1 (New σ).2 n e σ3) by (reflexivity || exact Ew).
      reflexivity.
    + rewrite (Flush_open_ok ks1 ks2 rw1 (New σ).2 n σ3) by (reflexivity || exact Ew).
      reflexivity.
Qed.

End world_more.

Section handler_facts.

Context {W : Type} `{RW : ResponseWriter W}.

Import header_api.

Implicit Types (rw : ResponseWriterBuffer) (σ τ : World W) (l : loc).
Implicit Types (table : list (string * list string)).

Lemma mutate_frame l f σ :
  sink (mutate l f σ) = sink σ ∧ wire (mutate l f σ) = wire σ
  ∧ ∀ l', is_Some (heap σ !! l') → is_Some (heap (mutate l f σ) !! l').
Proof.
  split; [reflexivity|]. split; [reflexivity|].
  intros l' Hl'. unfold mutate, store. simpl.
  apply lookup_insert_is_Some. destruct (decide (l = l')); [left|right]; tauto.
Qed.

Lemma add_values_load l key values : ∀ σ,
  load l (fold_left (λ σ value, mutate l (http.Add key value) σ) values σ)
    = fold_left (λ h value, http.Add key value h) values (load l σ).
Proof.
  induction values as [|v values IH]; intros σ; [reflexivity|].
  simpl. rewrite IH, load_mutate. reflexivity.
Qed.

Lemma add_values_frame l key values : ∀ σ,
  let τ := fold_left (λ σ value, mutate l (http.Add key value) σ) values σ in
  sink τ = sink σ ∧ wire τ = wire σ
  ∧ (∀ l', l ≠ l' → load l' τ = load l' σ)
  ∧ ∀ l', is_Some (heap σ !! l') → is_Some (heap τ !! l').
Proof.
  induction values as [|v values IH]; intros σ; simpl.
  - repeat split; auto.
  - destruct (IH (mutate l (http.Add key v) σ)) as (Es & Ew & El & Ea).
    destruct (mutate_frame l (http.Add key v) σ) as (Es' & Ew' & Ea').
    split; [congruence|]. split; [congruence|]. split.
    + intros l' Hne. rewrite El by exact Hne. apply load_mutate_ne. exact Hne.
    + intros l' Hl'. apply Ea, Ea', Hl'.
Qed.

Lemma add_table_load l table : ∀ σ,
  load l (add_table l table σ) = add_all table (load l σ).
Proof.
  induction table as [|kv table IH]; intros σ; [reflexivity|].
  unfold add_table, add_all in *. simpl. rewrite IH, add_values_load. reflexivity.
Qed.

Lemma add_table_frame l table : ∀ σ,
  sink (add_table l table σ) = sink σ ∧ wire (add_table l table σ) = wire σ
  ∧ (∀ l', l ≠ l' → load l' (add_table l table σ) = load l' σ)
  ∧ ∀ l', is_Some (heap σ !! l') → is_Some (heap (add_table l table σ) !! l').
Proof.
  induction table as [|kv table IH]; intros σ.
  - repeat split; auto.
  - change (add_table l (kv :: table) σ) with
      (add_table l table
         (fold_left (λ σ value, mutate l (http.Add kv.1 value) σ) kv.2 σ)).
    destruct (add_values_frame l kv.1 kv.2 σ) as (Es' & Ew' & El' & Ea').
    destruct (IH (fold_left (λ σ value, mutate l (http.Add kv.1 value) σ) kv.2 σ))
      as (Es & Ew & El & Ea).
    split; [congruence|]. split; [congruence|]. split.
    + intros l' Hne. rewrite El by exact Hne. apply El'. exact Hne.
    + intros l' Hl'. apply Ea, Ea', Hl'.
Qed.

(** What the header test's handler has built when it reaches its [Flush]:
    the sink's set with the starting headers added, the buffer's set with the
    additional ones added on top, in a map of its own. *)
Lemma header_setup_effect (starting additional : list (string * list string)) σ :
  is_Some (heap σ !! rw_Header (sink σ)) →
  let st := header_setup starting additional σ in
  let h1 := add_all starting (load (rw_Header (sink σ)) σ) in
  closed st.1 = false ∧ statusCode st.1 = 0 ∧ body st.1 = bytes.empty
  ∧ sink st.2 = sink σ ∧ wire st.2 = wire σ
  ∧ load (rw_Header (sink σ)) st.2 = h1
  ∧ load (header st.1) st.2 = add_all additional h1.
Proof.
  intros Hs st h1. unfold header_setup in st.
  set (σa := add_table (rw_Header (sink σ)) starting σ) in *.
  destruct (add_table_frame (rw_Header (sink σ)) starting σ) as (Esa & Ewa & _ & Eaa).
  fold σa in Esa, Ewa, Eaa.
  assert (Est : st = ((New σa).1, add_table (Header (New σa).1) additional (New σa).2)).
  { unfold st. destruct (New σa). reflexivity. }
  destruct (add_table_frame (Header (New σa).1) additional (New σa).2)
    as (Esc & Ewc & Elc & _).
  assert (Hal : is_Some (heap σa !! rw_Header (sink σ))) by (apply Eaa, Hs).
  assert (Hne : Header (New σa).1 ≠ rw_Header (sink σ)).
  { intros E. pose proof (New_header_fresh σa) as Hf.
    rewrite E in Hf. rewrite Hf in Hal. destruct Hal; discriminate. }
  rewrite Est. cbn [fst snd].
  split; [reflexivity|]. split; [reflexivity|]. split; [reflexivity|].
  split; [rewrite Esc; exact Esa|]. split; [rewrite Ewc; exact Ewa|]. split.
  - rewrite Elc by exact Hne. rewrite New_load_old by exact Hal.
    apply add_table_load.
  - change (header (New σa).1) with (Header (New σa).1).
    rewrite add_table_load, New_load_copy, Esa. unfold h1, σa.
    rewrite add_table_load. reflexivity.
Qed.

(** X13: the handler of the header test, for every table of starting and
    additional headers, every sink whose header keys are canonical, and every
    visiting order.  Without [Flush] the sink's header set holds the starting
    headers only and the sink has received no call.  With [Flush] the sink
    receives one body write, of no bytes, and at that moment its header set
    holds under every key the same set of values as the buffer's set
    (starting and additional headers), its own values first; the handler's
    check passes exactly when that write returns no error. *)
Theorem header_handler_effect (starting additional : list (string * list string))
    (ks1 ks2 : list string) σ :
  let sinkloc := rw_Header (sink σ) in
  let h1 := add_all starting (load sinkloc σ) in
  let local := add_all additional h1 in
  is_Some (heap σ !! sinkloc) →
  http.canonical_keys (load sinkloc σ) →
  http.range_of h1 ks1 → http.range_of local ks2 →
  (let out := header_handler starting additional false ks1 ks2 σ in
   out.1 = true ∧ sink out.2 = sink σ ∧ wire out.2 = wire σ
   ∧ load sinkloc out.2 = h1)
  ∧ ∃ σr, sink σr = sink σ ∧ wire σr = wire σ
          ∧ effect.set_equal_per_key (load sinkloc σr) local
          ∧ (∀ k, http.Values h1 k `prefix_of` http.Values (load sinkloc σr) k)
          ∧ header_handler starting additional true ks1 ks2 σ
              = (is_nil (sink_Write [] σr).1.2, (sink_Write [] σr).2).
Proof.
  intros sinkloc h1 local Hs Hc H1 H2.
  destruct (header_setup_effect starting additional σ Hs)
    as (Ecl & Est & Ebo & Esi & Ewi & Elo & Ell).
  fold sinkloc h1 local in Elo, Ell.
  unfold header_handler.
  destruct (header_setup starting additional σ) as [rwb σ3]. cbn [fst snd] in *.
  split; [repeat split; assumption|].
  exists (flush_headers_in ks1 ks2 rwb σ3).
  split; [exact Esi|]. split; [exact Ewi|].
  assert (Eload : load sinkloc (flush_headers_in ks1 ks2 rwb σ3)
                  = reconcile.flush_headers ks1 ks2 local h1).
  { unfold sinkloc. rewrite <- Esi. rewrite flush_headers_in_load.
    rewrite Esi. fold sinkloc. rewrite Elo, Ell. reflexivity. }
  assert (Hc1 : http.canonical_keys h1) by (apply add_all_canonical, Hc).
  assert (Hcl : http.canonical_keys local) by (apply add_all_canonical, Hc1).
  destruct (flush_headers_extension ks1 ks2 local h1 H1 H2 Hc1 Hcl) as [Hse Hpre].
  { intros c vs Hv. apply add_all_extends. exact Hv. }
  rewrite Eload. split; [exact Hse|]. split; [exact Hpre|].
  assert (Efs : flush_status rwb (flush_headers_in ks1 ks2 rwb σ3)
                = flush_headers_in ks1 ks2 rwb σ3).
  { unfold flush_status. rewrite Est. reflexivity. }
  destruct (sink_Write [] (flush_headers_in ks1 ks2 rwb σ3)) as [[n [e|]] σ4] eqn:Ew.
  - rewrite (Flush_open_error ks1 ks2 rwb σ3 n e σ4); [reflexivity | exact Ecl |].
    rewrite Efs, Ebo. exact Ew.
  - rewrite (Flush_open_ok ks1 ks2 rwb σ3 n σ4); [reflexivity | exact Ecl |].
    rewrite Efs, Ebo. exact Ew.
Qed.

End handler_facts.

(** * A buffer over a buffer *)

Section stacked_buffers.

Implicit Types (outer : ResponseWriterBuffer) (σ : World ResponseWriterBuffer).

(** The inner buffer's status code after the outer buffer's status step. *)
Local Abbreviation inner_code outer σ :=
  (if Z.eqb (statusCode outer) 0 then statusCode (sink σ) else statusCode outer).

Lemma Flush_into_buffer_load (ks1 ks2 : list string) outer σ :
  closed outer = false →
  load (header (sink σ)) (Flush ks1 ks2 outer σ).2
    = reconcile.flush_headers ks1 ks2 (load (header outer) σ) (load (header (sink σ)) σ).
Proof.
  intros Hc. unfold Flush. rewrite Hc.
  unfold sink_Write, flush_status, sink_WriteHeader, flush_headers_in, store, load.
  destruct (sink σ) as [hi bi ci cli] eqn:Es. simpl.
  destruct (Z.eqb (statusCode outer) 0); simpl;
    unfold Buffer_Write, Write; simpl; destruct cli; simpl;
    unfold Header; simpl; rewrite ?lookup_insert_eq; reflexivity.
Qed.

(** X14: a buffer flushed into an open buffer.  The outer [Flush] reports the
    length of its cached body and no error and closes the outer buffer; the
    inner buffer now caches that body, carries the outer status code when one
    was set (its own otherwise), is still open, and its header set is the
    reconciliation of the outer set into it. *)
Theorem Flush_into_open_buffer (ks1 ks2 : list string) outer σ :
  closed outer = false → closed (sink σ) = false →
  let out := Flush ks1 ks2 outer σ in
  out.1.1 = (Z.of_nat (length (bytes.Bytes (body outer))), None)
  ∧ closed out.1.2 = true
  ∧ sink out.2 = {| header := header (sink σ); body := body outer;
                    statusCode := inner_code outer σ; closed := false |}
  ∧ load (header (sink σ)) out.2
      = reconcile.flush_headers ks1 ks2 (load (header outer) σ) (load (header (sink σ)) σ).
Proof.
  intros Hc Hi out.
  split; [|split; [|split; [|apply Flush_into_buffer_load; exact Hc]]];
    subst out; unfold Flush; rewrite Hc;
    unfold sink_Write, flush_status, sink_WriteHeader, flush_headers_in, store, load;
    destruct (sink σ) as [hi bi ci cli] eqn:Es; simpl in Hi; subst cli;
    destruct outer as [ho [bo] co clo]; simpl;
    destruct (Z.eqb co 0); simpl; reflexivity.
Qed.

(** X15: a buffer flushed into a closed buffer.  The outer [Flush] returns 0
    and [ErrBufferClosed] and the outer buffer stays as it was, open; but the
    closed inner buffer has been changed all the same: its header set is the
    reconciliation of the outer set into it, and its status code is the outer
    one when that was set.  Only its cached body is untouched. *)
Theorem Flush_into_closed_buffer (ks1 ks2 : list string) outer σ :
  closed outer = false → closed (sink σ) = true →
  let out := Flush ks1 ks2 outer σ in
  out.1.1 = (0, Some ErrBufferClosed)
  ∧ out.1.2 = outer
  ∧ sink out.2 = {| header := header (sink σ); body := body (sink σ);
                    statusCode := inner_code outer σ; closed := true |}
  ∧ load (header (sink σ)) out.2
      = reconcile.flush_headers ks1 ks2 (load (header outer) σ) (load (header (sink σ)) σ).
Proof.
  intros Hc Hi out.
  split; [|split; [|split; [|apply Flush_into_buffer_load; exact Hc]]];
    subst out; unfold Flush; rewrite Hc;
    unfold sink_Write, flush_status, sink_WriteHeader, flush_headers_in, store, load;
    destruct (sink σ) as [hi bi ci cli] eqn:Es; simpl in Hi; subst cli;
    destruct outer as [ho [bo] co clo]; simpl;
    destruct (Z.eqb co 0); simpl; reflexivity.
Qed.

End stacked_buffers.

(** * Runs of the further properties *)

Section more_runs_checks.

Import http reconcile effect header_api.

Local Abbreviation canon := textproto.CanonicalMIMEHeaderKey.

Lemma distinct_canonical_decide (h : Header) :
  bool_decide (map_Forall (λ k _, map_Forall (λ k' _, canon k = canon k' → k = k') h) h)
    = true →
  distinct_canonical h.
Proof.
  intros Hb k k' [v Hv] [v' Hv'] E. apply bool_decide_eq_true in Hb.
  exact (Hb k v Hv k' v' Hv' E).
Qed.

Lemma no_dup_values_decide (h : Header) :
  bool_decide (map_Forall (λ _ vs, NoDup vs) h) = true → no_dup_values h.
Proof.
  intros Hb k vs Hv. apply bool_decide_eq_true in Hb. exact (Hb k vs Hv).
Qed.

Lemma range_of_decide (h : Header) (ks : list string) :
  bool_decide (NoDup ks ∧ Forall (λ k, k ∈ (map_to_list h).*1) ks
               ∧ Forall (λ k, k ∈ ks) (map_to_list h).*1) = true →
  range_of h ks.
Proof.
  intros Hb. apply bool_decide_eq_true in Hb as (Hnd & H1 & H2).
  unfold range_of. apply NoDup_Permutation.
  - exact Hnd.
  - apply NoDup_fst_map_to_list.
  - intros k. rewrite Forall_forall in H1, H2. split; [apply H1 | apply H2].
Qed.

End more_runs_checks.

Ltac by_eval := vm_compute; repeat split; reflexivity.
Ltac range_by_eval := apply range_of_decide; by_eval.

Section more_runs.

Import http reconcile effect header_api.

Local Abbreviation canon := textproto.CanonicalMIMEHeaderKey.

Lemma delete_loop_order_irrelevant_witness :
  let actual : Header := <["x-a" := ["a"]]> (<["X-A" := ["b"]]> {["Y" := ["c"]]}) in
  let local : Header := {["X-A" := ["b"]]} in
  delete_loop ["x-a"; "Y"; "X-A"] local actual
    = delete_loop ["X-A"; "Y"; "x-a"] local actual.
Proof.
  intros actual local. eapply proj1.
  apply delete_loop_order_irrelevant; range_by_eval.
Defined.

(** The same run, evaluated: "x-a" takes "X-A" out of the sink and stays
    itself; "Y" is deleted. *)
Example delete_loop_run :
  delete_loop ["x-a"; "Y"; "X-A"] {["X-A" := ["b"]]}
    (<["x-a" := ["a"]]> (<["X-A" := ["b"]]> {["Y" := ["c"]]}))
  = {["x-a" := ["a"]]}.
Proof. by_eval. Qed.

Lemma flush_headers_order_irrelevant_witness :
  let actual : Header := <["x-a" := ["a"]]> {["Y" := ["c"]]} in
  let local : Header := <["x-a" := ["b"]]> {["Z" := ["d"]]} in
  flush_headers ["x-a"; "Y"] ["x-a"; "Z"] local actual
    = flush_headers ["Y"; "x-a"] ["Z"; "x-a"] local actual.
Proof.
  intros actual local. apply flush_headers_order_irrelevant; try range_by_eval.
  apply distinct_canonical_decide. by_eval.
Defined.

Lemma flush_headers_again_witness :
  let actual : Header := <["x-a" := ["a"]]> {["Y" := ["c"]]} in
  let local : Header := <["x-a" := ["b"]]> {["Z" := ["d"]]} in
  let once := flush_headers ["x-a"; "Y"] ["x-a"; "Z"] local actual in
  flush_headers ["x-a"; "X-A"; "Z"] ["x-a"; "Z"] local once = once
  ∧ flush_headers ["x-a"; "X-A"; "Z"] ["Z"; "x-a"] local once = once.
Proof.
  intros actual local once.
  destruct (flush_headers_again ["x-a"; "Y"] ["x-a"; "X-A"; "Z"] ["x-a"; "Z"] ["Z"; "x-a"]
              local actual) as [Hsame Hany]; [range_by_eval|].
  split; [exact Hsame|]. apply Hany; try range_by_eval.
  apply distinct_canonical_decide. by_eval.
Defined.

Lemma flush_headers_keeps_staged_witness :
  "b" ∈ Values (flush_headers ["X-A"] ["x-a"] {["x-a" := ["b"]]} {["X-A" := ["a"]]}) "x-a".
Proof.
  apply (flush_headers_keeps_staged _ _ _ _ "x-a" ["b"]).
  - range_by_eval.
  - by_eval.
  - left.
Defined.

Lemma flush_headers_keys_witness :
  let local : Header := <["x-a" := ["b"]]> {["Y" := []]} in
  is_Some ((∅ : Header) !! "X-A")
  ∨ (canon "X-A" = "X-A"
     ∧ ∃ k vs, k ∈ ["x-a"; "Y"] ∧ local !! k = Some vs ∧ vs ≠ [] ∧ canon k = "X-A").
Proof.
  intros local. apply (flush_headers_keys [] ["x-a"; "Y"] local ∅ "X-A").
  exists ["b"]. by_eval.
Defined.

(** The same run: the local key "Y", which holds no value, creates no key. *)
Example flush_headers_keys_run :
  flush_headers [] ["x-a"; "Y"] (<["x-a" := ["b"]]> {["Y" := []]}) ∅
    = {["X-A" := ["b"]]}.
Proof. by_eval. Qed.

Lemma flush_headers_no_dup_witness :
  no_dup_values
    (flush_headers ["X"] ["X"] {["X" := ["b"; "a"; "b"; "b"]]} {["X" := ["a"]]}).
Proof.
  apply flush_headers_no_dup. apply no_dup_values_decide. by_eval.
Defined.

Lemma flush_headers_after_Set_witness :
  let h : Header := {["Potato" := ["mashed"]]} in
  flush_headers ["Potato"] ["Potato"] (Header_Set "potato" "russet" h) h
    = copy_value "potato" h "russet"
  ∧ Values (copy_value "potato" h "russet") "potato" = ["mashed"; "russet"]
  ∧ Header_Get (copy_value "potato" h "russet") "potato" = "mashed".
Proof.
  intros h. apply (flush_headers_after_Set ["Potato"] ["Potato"] "potato" "russet" h).
  - range_by_eval.
  - range_by_eval.
  - apply canonical_keys_decide. by_eval.
Defined.

End more_runs.

Section more_recorded_runs.

Import header_api.

Lemma Flush_fresh_buffer_witness :
  let σ := recorder_world {["Content-Type" := ["application/json"]]} None in
  let st := New σ in
  load (rw_Header (sink σ)) (flush_headers_in ["Content-Type"] ["Content-Type"] st.1 st.2)
    = load (rw_Header (sink σ)) σ
  ∧ wire (Flush ["Content-Type"] ["Content-Type"] st.1 st.2).2 = wire σ ++ [CallWrite []].
Proof.
  intros σ. apply (Flush_fresh_buffer ["Content-Type"] ["Content-Type"] σ).
  - exists {["Content-Type" := ["application/json"]]}. reflexivity.
  - apply canonical_keys_decide. by_eval.
  - range_by_eval.
  - range_by_eval.
Defined.

Lemma closed_buffer_inert_witness :
  let st := New (recorder_world ∅ None) in
  let out := Flush [] [] (Write hello st.1 st.2).1.2 st.2 in
  let ops := [OpHeader (http.Add "X" "a"); OpWrite world; OpWriteHeader 500;
              OpFlush [] ["X"]] in
  let st' := run_ops ops (out.1.2, out.2) in
  header st'.1 = header out.1.2
  ∧ body st'.1 = body out.1.2
  ∧ closed st'.1 = true
  ∧ sink st'.2 = sink out.2
  ∧ wire st'.2 = wire out.2
  ∧ ∀ l, l ≠ header out.1.2 → heap st'.2 !! l = heap out.2 !! l.
Proof.
  intros st out ops. apply closed_buffer_inert.
  - by_eval.
  - repeat constructor.
Defined.

(** The same run, evaluated: the sink still holds "hello" and no header; the
    closed buffer's status code is now 500. *)
Example closed_buffer_inert_run :
  let st := New (recorder_world ∅ None) in
  let out := Flush [] [] (Write hello st.1 st.2).1.2 st.2 in
  let ops := [OpHeader (http.Add "X" "a"); OpWrite world; OpWriteHeader 500;
              OpFlush [] ["X"]] in
  let st' := run_ops ops (out.1.2, out.2) in
  rec_body (sink st'.2) = hello
  ∧ load (rw_Header (sink st'.2)) st'.2 = ∅
  ∧ statusCode st'.1 = 500.
Proof. by_eval. Qed.

Lemma Flush_retry_repeats_witness :
  let rw := failing_run.1 in
  let σ := failing_run.2 in
  let out := Flush ["X"] ["Y"] rw σ in
  out.1.2 = rw
  ∧ wire out.2 = [CallWriteHeader 404; CallWrite []]
  ∧ wire (Flush ["Y"] ["Y"] out.1.2 out.2).2
      = [CallWriteHeader 404; CallWrite []; CallWriteHeader 404; CallWrite []].
Proof.
  intros rw σ.
  apply (Flush_retry_repeats ["X"] ["Y"] ["Y"] ["Y"] rw σ 0 (ErrSink "broken pipe")
           (sink_Write (bytes.Bytes (body rw))
              (flush_status rw (flush_headers_in ["X"] ["Y"] rw σ))).2).
  - by_eval.
  - by_eval.
Defined.

Lemma New_twice_independent_witness :
  let σ := recorder_world {["X" := ["a"]]} None in
  let st1 := New σ in
  let σ1 := mutate (Header st1.1) (Header_Set "potato" "russet") st1.2 in
  let st2 := New σ1 in
  Header st2.1 ≠ Header st1.1
  ∧ load (Header st2.1) st2.2 = load (rw_Header (sink σ)) σ
  ∧ load (Header st1.1) st2.2
      = Header_Set "potato" "russet" (load (rw_Header (sink σ)) σ)
  ∧ (∀ g, load (Header st1.1) (mutate (Header st2.1) g st2.2) = load (Header st1.1) st2.2)
  ∧ (∀ g, load (Header st2.1) (mutate (Header st1.1) g st2.2) = load (Header st2.1) st2.2).
Proof.
  intros σ. apply (New_twice_independent σ (Header_Set "potato" "russet")).
  exists {["X" := ["a"]]}. reflexivity.
Defined.

Lemma header_handler_effect_witness :
  let starting := [("Content-Type", ["application/json"])] in
  let additional := [("sandwich", ["BLT"])] in
  let σ := recorder_world ∅ None in
  let out := header_handler starting additional false
               ["Content-Type"] ["Content-Type"; "Sandwich"] σ in
  out.1 = true ∧ sink out.2 = sink σ ∧ wire out.2 = wire σ
  ∧ load (rw_Header (sink σ)) out.2 = add_all starting (load (rw_Header (sink σ)) σ).
Proof.
  intros starting additional σ.
  apply (header_handler_effect starting additional
           ["Content-Type"] ["Content-Type"; "Sandwich"] σ).
  - exists ∅. reflexivity.
  - apply canonical_keys_decide. by_eval.
  - range_by_eval.
  - range_by_eval.
Defined.

(** The test's cases "multiple_single_value_additional" with and without
    [Flush], on the recording sink. *)
Example header_handler_run :
  let additional := [("Content-Type", ["application/json"]); ("sandwich", ["BLT"])] in
  let σ := recorder_world ∅ None in
  let flushed := header_handler [] additional true [] ["Content-Type"; "Sandwich"] σ in
  let kept := header_handler [] additional false [] ["Content-Type"; "Sandwich"] σ in
  flushed.1 = true
  ∧ load (rw_Header (sink σ)) flushed.2
      = <["Content-Type" := ["application/json"]]> {["Sandwich" := ["BLT"]]}
  ∧ load (rw_Header (sink σ)) kept.2 = ∅.
Proof. by_eval. Qed.

(** The write test's two cases on the recording sink, for the body "hello". *)
Example write_handler_run :
  let σ := recorder_world ∅ None in
  (write_handler hello true [] [] σ).1 = true
  ∧ rec_body (sink (write_handler hello true [] [] σ).2) = hello
  ∧ (write_handler hello false [] [] σ).1 = true
  ∧ rec_body (sink (write_handler hello false [] [] σ).2) = [].
Proof. by_eval. Qed.

(** An inner buffer over the map at 1 and an outer buffer over the map at 2,
    which holds a header more; the outer buffer caches "hello" and the status
    404. *)
Lemma Flush_into_open_buffer_witness :
  let inner := {| header := 1%positive; body := {| bytes.buf := world |};
                  statusCode := 200; closed := false |} in
  let outer := {| header := 2%positive; body := {| bytes.buf := hello |};
                  statusCode := 404; closed := false |} in
  let σ := {| heap := <[2%positive := {["X" := ["a"]]}]> {[1%positive := ∅]};
              sink := inner; wire := [] |} in
  let out := Flush [] ["X"] outer σ in
  out.1.1 = (5, None)
  ∧ closed out.1.2 = true
  ∧ sink out.2 = {| header := 1%positive; body := {| bytes.buf := hello |};
                    statusCode := 404; closed := false |}
  ∧ load 1%positive out.2 = {["X" := ["a"]]}.
Proof.
  intros inner outer σ.
  apply (Flush_into_open_buffer [] ["X"] outer σ); reflexivity.
Defined.

Lemma Flush_into_closed_buffer_witness :
  let inner := {| header := 1%positive; body := {| bytes.buf := world |};
                  statusCode := 200; closed := true |} in
  let outer := {| header := 2%positive; body := {| bytes.buf := hello |};
                  statusCode := 404; closed := false |} in
  let σ := {| heap := <[2%positive := {["X" := ["a"]]}]> {[1%positive := ∅]};
              sink := inner; wire := [] |} in
  let out := Flush [] ["X"] outer σ in
  out.1.1 = (0, Some ErrBufferClosed)
  ∧ out.1.2 = outer
  ∧ sink out.2 = {| header := 1%positive; body := {| bytes.buf := world |};
                    statusCode := 404; closed := true |}
  ∧ load 1%positive out.2 = {["X" := ["a"]]}.
Proof.
  intros inner outer σ.
  apply (Flush_into_closed_buffer [] ["X"] outer σ); reflexivity.
Defined.

End more_recorded_runs.
